(** * kexkill: the per-connection SSH pre-authentication state machine and
      its poll loop, embedded from [src/kexkill.c].

    Conventions of the embedding.
    - A [char] of the receive buffer is a [Byte.byte]; [byte_val] is its
      value as an [unsigned char] (what [(uint8_t)c] and [strncmp] see).
      The comparisons of the source against ['\r'], ['\n'], [1] and [20]
      are the same on a signed and on an unsigned [char].
    - Pointers into [conn->buf] are offsets ([nat]) from [conn->buf]:
      [eom] is [buflen], [eop] is the offset of the end of the frame.
    - [int] is 32 bits wide and [size_t] 64 bits wide (LP64), two's
      complement; the conversions are written out in [int_of] and
      [size_of_int].
    - What the kernel answers ([socket], [connect], [read], [write],
      [poll]) is an explicit argument of each function. *)

From Stdlib Require Import ZArith Lia.
From Stdlib Require Import Strings.Byte Strings.String.
From stdpp Require Import base list.

Local Open Scope Z_scope.

(** ** Data model *)

(** [sizeof conn->buf] *)
Definition BUFSZ : nat := 2048.

(** [#define MAXCONCUR 128] *)
Definition MAXCONCUR : nat := 128.

Inductive kk_state : Set :=
| kk_closed
| kk_connected
| kk_banner
| kk_kexinit.

Record kk_conn : Set := mk_conn {
  fd : Z;
  state : kk_state;
  buflen : nat;
  buf : list byte
}.

Definition kk_state_eqb (a b : kk_state) : bool :=
  match a, b with
  | kk_closed, kk_closed | kk_connected, kk_connected
  | kk_banner, kk_banner | kk_kexinit, kk_kexinit => true
  | _, _ => false
  end.

Definition byte_val (b : byte) : Z := Z.of_N (Byte.to_N b).

(** [buf[i]]; the array has [BUFSZ] cells, all of them initialised. *)
Definition byte_at (b : list byte) (i : nat) : byte := nth i b x00.

Definition CR : byte := x0d.
Definition LF : byte := x0a.

Definition bytes_of (s : String.string) : list byte :=
  String.list_byte_of_string s.
Arguments bytes_of s%_string_scope.

(** [static char banner[] = "SSH-2.0-kexkill\r\n"], without its NUL:
    the source sends [sizeof banner - 1] bytes. *)
Definition banner : list byte :=
  bytes_of "SSH-2.0-kexkill" ++ [CR; LF].

(** [static char kexinit[]], without its NUL. *)
Definition kexinit : list byte :=
  [x00; x00; x00; xcc]                 (* packet length *)
  ++ [x08]                             (* padding length *)
  ++ [x14]                             (* SSH_MSG_KEXINIT *)
  ++ bytes_of "give me cookies!"       (* cookie *)
  ++ [x00; x00; x00; x36]              (* key exchange *)
  ++ bytes_of "diffie-hellman-group1-sha1,diffie-hellman-group14-sha1"
  ++ [x00; x00; x00; x0f]              (* server host key *)
  ++ bytes_of "ssh-dss,ssh-rsa"
  ++ [x00; x00; x00; x13]              (* ctos encryption *)
  ++ bytes_of "3des-cbc,aes128-cbc"
  ++ [x00; x00; x00; x13]              (* stoc encryption *)
  ++ bytes_of "3des-cbc,aes128-cbc"
  ++ [x00; x00; x00; x09]              (* ctos authentication *)
  ++ bytes_of "hmac-sha1"
  ++ [x00; x00; x00; x09]              (* stoc authentication *)
  ++ bytes_of "hmac-sha1"
  ++ [x00; x00; x00; x04]              (* ctos compression *)
  ++ bytes_of "none"
  ++ [x00; x00; x00; x04]              (* stoc compression *)
  ++ bytes_of "none"
  ++ [x00; x00; x00; x00]              (* ctos languages *)
  ++ [x00; x00; x00; x00]              (* stoc languages *)
  ++ [x00]                             (* KEX follows *)
  ++ [x00; x00; x00; x00]              (* future extension *)
  ++ bytes_of "padding!".              (* padding *)

(** ** Integer conversions *)

(** A value stored in an [int]. *)
Definition int_of (z : Z) : Z := (z + 2 ^ 31) mod 2 ^ 32 - 2 ^ 31.

(** An [int] converted to [size_t]. *)
Definition size_of_int (z : Z) : Z := z mod 2 ^ 64.

(** [size_t] addition. *)
Definition size_add (a b : Z) : Z := (a + b) mod 2 ^ 64.

(** ** [kk_close] *)

(** [memset(conn, 0, sizeof *conn); conn->fd = -1; conn->state = kk_closed] *)
Definition kk_close (c : kk_conn) : kk_conn :=
  mk_conn (-1) kk_closed 0 (replicate BUFSZ x00).

(** ** [kk_input] *)

(** What [read(conn->fd, conn->buf, len)] answers: an error ([rlen < 0])
    or the bytes it stored; it never stores more than [len] bytes. *)
Inductive read_res : Set :=
| ReadErr
| ReadOk (data : list byte).

(** The scan [for (eop = conn->buf; eop < eom; ++eop)] that breaks at the
    first carriage return, on the bytes below [eom]: the offset where it
    stops. *)
Fixpoint scan_cr (l : list byte) : nat :=
  match l with
  | [] => O
  | b :: l' => if Byte.eqb b CR then O else S (scan_cr l')
  end.

(** [strncmp(s1, s2, n)]; the end of a list stands for the NUL that ends
    a string literal. *)
Fixpoint strncmp (s1 s2 : list byte) (n : nat) : Z :=
  match n with
  | O => 0
  | S n' =>
    let c1 := hd x00 s1 in
    let c2 := hd x00 s2 in
    if negb (Byte.eqb c1 c2) then byte_val c1 - byte_val c2
    else if Byte.eqb c1 x00 then 0
    else strncmp (tl s1) (tl s2) n'
  end.

(** [memmove(conn->buf, conn->buf + src, n)] *)
Definition memmove_front (b : list byte) (src n : nat) : list byte :=
  take n (drop src b) ++ drop n b.

(** The bytes [read] stored, at [conn->buf] (its second argument), and
    [conn->buflen += rlen]. *)
Definition store_read (c : kk_conn) (data : list byte) : kk_conn :=
  let data := take (BUFSZ - buflen c)%nat data in
  mk_conn (fd c) (state c) (buflen c + length data)%nat
          (data ++ drop (length data) (buf c)).

Definition fail (c : kk_conn) : kk_conn * Z := (kk_close c, -1).

(** [case kk_connected:] *)
Definition input_connected (c : kk_conn) : kk_conn * Z :=
  let eom := buflen c in
  let eop := scan_cr (take eom (buf c)) in
  if Z.of_nat eop >=? Z.of_nat eom - 1 then (c, 0)
  else
    let b1 := <[eop := x00]> (buf c) in
    let eop1 := S eop in
    let eop2 := S eop1 in
    if negb (Byte.eqb (byte_at b1 eop1) LF)
       || (Z.of_nat eop2 >? 255)
       || negb (strncmp b1 (bytes_of "SSH-2.0-") 8 =? 0)
    then fail c
    else
      (mk_conn (fd c) kk_banner (buflen c - eop2)%nat
               (memmove_front b1 eop2 (eom - eop2)), 0).

(** The [size_t len] decoded from the first four bytes. *)
Definition packet_len (b : list byte) : Z :=
  size_of_int (int_of
    (Z.lor (Z.lor (Z.lor (Z.shiftl (byte_val (byte_at b 0)) 24)
                         (Z.shiftl (byte_val (byte_at b 1)) 16))
                  (Z.shiftl (byte_val (byte_at b 2)) 8))
           (byte_val (byte_at b 3)))).

(** [case kk_kexinit:] *)
Definition input_kexinit (c : kk_conn) : kk_conn * Z :=
  if (buflen c <? 4)%nat then (c, 0)
  else
    let len := packet_len (buf c) in
    if size_add len 4 >? Z.of_nat BUFSZ then fail c
    else
      let eop := Z.to_nat (size_add len 4) in
      if (buflen c <? eop)%nat then (c, 0)
      else if Byte.eqb (byte_at (buf c) 5) x01 then (kk_close c, 0)
      else
        (mk_conn (fd c) (state c) (buflen c - eop)%nat
                 (memmove_front (buf c) eop (buflen c - eop)), 0).

(** The [switch (conn->state)] *)
Definition input_switch (c : kk_conn) : kk_conn * Z :=
  match state c with
  | kk_connected => input_connected c
  | kk_kexinit => input_kexinit c
  | _ => (c, 0)
  end.

Definition kk_input (c : kk_conn) (r : read_res) : kk_conn * Z :=
  if (buflen c =? BUFSZ)%nat then fail c
  else
    match r with
    | ReadErr => fail c
    | ReadOk data => input_switch (store_read c data)
    end.

(** ** [kk_write] and [kk_output] *)

(** What one [write(conn->fd, data, len)] answers: an error ([wlen < 0])
    or the number of bytes it took, at most [len]. *)
Inductive write_res : Set :=
| WriteErr
| WriteOk (n : nat).

(** The [while (len > 0)] loop over the answers of the successive [write]
    calls: the return value and the bytes that went out.  [None] when the
    answers run out while bytes remain (the loop has not returned). *)
Fixpoint kk_write (ws : list write_res) (data : list byte) {struct ws}
  : option (Z * list byte) :=
  match data with
  | [] => Some (0, [])
  | _ :: _ =>
    match ws with
    | [] => None
    | WriteErr :: _ => Some (-1, [])
    | WriteOk n :: ws' =>
      let wlen := Nat.min n (length data) in
      match kk_write ws' (drop wlen data) with
      | Some (r, sent) => Some (r, take wlen data ++ sent)
      | None => None
      end
    end
  end.

(** The connection, the return value and the bytes sent. *)
Definition kk_output (c : kk_conn) (ws : list write_res)
  : option (kk_conn * Z * list byte) :=
  match state c with
  | kk_banner =>
    match kk_write ws banner with
    | None => None
    | Some (r, sent) =>
      if negb (r =? 0) then Some (kk_close c, -1, sent)
      else Some (mk_conn (fd c) kk_kexinit (buflen c) (buf c), 0, sent)
    end
  | kk_kexinit =>
    match kk_write ws kexinit with
    | None => None
    | Some (r, sent) =>
      if negb (r =? 0) then Some (kk_close c, -1, sent)
      else Some (c, 0, sent)
    end
  | _ => Some (c, 0, [])
  end.

(** ** [kk_connect] *)

(** [r] is what [socket] and [connect] answer together: the descriptor
    when both succeed.  The third component is the diagnostic
    ["[fd] connected"] that the success path prints when [verbose] is
    set. *)
Definition kk_connect (c : kk_conn) (r : option Z) : kk_conn * Z * list Z :=
  match r with
  | Some f => (mk_conn f kk_connected (buflen c) (buf c), 0, [f])
  | None => (c, -1, [])
  end.

(** ** [kexkill] *)

(** The flags of [<poll.h>], with their Linux values. *)
Definition POLLIN : Z := 1.
Definition POLLOUT : Z := 4.
Definition POLLERR : Z := 8.
Definition POLLHUP : Z := 16.
Definition POLLNVAL : Z := 32.

Record pollfd : Set := mk_pollfd {
  pfd_fd : Z;
  events : Z;
  revents : Z
}.

(** What [poll] returns: a failure other than [EINTR], a value [<= 0]
    otherwise ([EINTR], or nothing ready), or a positive count. *)
Inductive poll_res : Set :=
| PollFail
| PollRetry
| PollReady.

(** The answers of the kernel during one pass of the [for (;;)] loop,
    by slot. *)
Record pass_env : Type := mk_env {
  connect_ans : nat -> option Z;
  poll_ans : poll_res;
  revents_ans : nat -> Z;
  read_ans : nat -> read_res;
  write_ans : nat -> list write_res
}.

Definition is_closed (c : kk_conn) : bool := kk_state_eqb (state c) kk_closed.

(** The top-up loop [for (i = n = 0; i < MAXCONCUR; ++i)], from slot [i]
    on: the slots, the poll set, [k], [n] and the diagnostics. *)
Fixpoint topup (e : pass_env) (i : nat) (cs : list kk_conn) (k n : Z)
  : list kk_conn * list pollfd * Z * Z * list Z :=
  match cs with
  | [] => ([], [], k, n, [])
  | c :: cs' =>
    let '(c1, k1, d1) :=
      if is_closed c then
        let '(c1, r, d) := kk_connect c (connect_ans e i) in
        (c1, if r =? 0 then int_of (k + 1) else k, d)
      else (c, k, []) in
    let p :=
      if is_closed c1 then mk_pollfd (fd c1) POLLNVAL 0
      else mk_pollfd (fd c1) (Z.lor (Z.lor POLLIN POLLOUT) POLLERR) 0 in
    let n1 := if is_closed c1 then n else Z.of_nat i + 1 in
    let '(cs2, ps, k2, n2, d2) := topup e (S i) cs' k1 n1 in
    (c1 :: cs2, p :: ps, k2, n2, d1 ++ d2)
  end.

(** The body of the dispatch loop for one slot; the bytes sent come
    with the connection. *)
Definition dispatch_slot (p : pollfd) (c : kk_conn)
    (r : read_res) (ws : list write_res) : option (kk_conn * list byte) :=
  if pfd_fd p =? 0 then Some (c, [])
  else if negb (Z.land (revents p) (Z.lor POLLERR POLLHUP) =? 0)
  then Some (kk_close c, [])
  else
    let c1 :=
      if negb (Z.land (revents p) POLLIN =? 0) then fst (kk_input c r)
      else c in
    if negb (Z.land (revents p) POLLOUT =? 0) then
      match kk_output c1 ws with
      | Some (c2, _, sent) => Some (c2, sent)
      | None => None
      end
    else Some (c1, []).

(** The dispatch loop [for (i = 0; i < MAXCONCUR; ++i)], from slot [i]
    on, with the [revents] that [poll] filled in. *)
Fixpoint dispatch (e : pass_env) (i : nat) (ps : list pollfd)
    (cs : list kk_conn) : option (list kk_conn) :=
  match ps, cs with
  | p :: ps', c :: cs' =>
    match dispatch_slot (mk_pollfd (pfd_fd p) (events p) (revents_ans e i))
                        c (read_ans e i) (write_ans e i) with
    | None => None
    | Some (c1, _) =>
      match dispatch e (S i) ps' cs' with
      | None => None
      | Some cs1 => Some (c1 :: cs1)
      end
    end
  | _, _ => Some []
  end.

(** One pass of [for (;;)]. *)
Inductive pass_res : Type :=
| Break (k : Z) (cs : list kk_conn) (diag : list Z)   (* [n == 0] *)
| Again (k : Z) (cs : list kk_conn) (diag : list Z)   (* next pass *)
| Abort                                               (* [err(1, "poll()")] *)
| Hang.                                               (* a [kk_write] that does not return *)

Definition kexkill_pass (e : pass_env) (cs : list kk_conn) (k : Z)
  : pass_res :=
  let '(cs1, ps, k1, n, d) := topup e 0 cs k 0 in
  if n =? 0 then Break k1 cs1 d
  else
    match poll_ans e with
    | PollFail => Abort
    | PollRetry => Again k1 cs1 d
    | PollReady =>
      match dispatch e 0 ps cs1 with
      | None => Hang
      | Some cs2 => Again k1 cs2 d
      end
    end.

(** The run of the loop over the passes whose answers are given. *)
Inductive outcome : Type :=
| Returned (k : Z) (cs : list kk_conn) (diag : list Z)  (* [return (k)] *)
| Fatal                                                 (* [err(1, ...)] *)
| Hung
| Pending (k : Z) (cs : list kk_conn) (diag : list Z).  (* still looping *)

Fixpoint kexkill_loop (envs : list pass_env) (cs : list kk_conn) (k : Z)
    (diag : list Z) : outcome :=
  match envs with
  | [] => Pending k cs diag
  | e :: envs' =>
    match kexkill_pass e cs k with
    | Break k1 cs1 d => Returned k1 cs1 (diag ++ d)
    | Again k1 cs1 d => kexkill_loop envs' cs1 k1 (diag ++ d)
    | Abort => Fatal
    | Hang => Hung
    end
  end.

Definition kexkill (envs : list pass_env) (cs : list kk_conn) : outcome :=
  kexkill_loop envs cs 0 [].

(** ** [main] *)

(** [memset(&conns, 0, sizeof conns)] and [conns[i].fd = -1] *)
Definition conns_init : list kk_conn :=
  replicate MAXCONCUR (mk_conn (-1) kk_closed 0 (replicate BUFSZ x00)).

(** The loop over the resolved addresses, each with the passes of its
    run, and [exit(0)]; [None] while a run has not returned. *)
Fixpoint main_addresses (res : list (list pass_env)) (cs : list kk_conn)
  : option Z :=
  match res with
  | [] => Some 0
  | envs :: res' =>
    match kexkill envs cs with
    | Returned k cs1 _ => if k >? 0 then Some 0 else main_addresses res' cs1
    | Fatal => Some 1
    | Hung | Pending _ _ _ => None
    end
  end.



(** What a connection in a given stage has still to send when the
    key-exchange-init packet goes out [n] times: the banner first, unless
    it is already out. *)
Definition script (s : kk_state) (n : nat) : list byte :=
  match s with
  | kk_closed => []
  | kk_kexinit => concat (replicate n kexinit)
  | kk_connected | kk_banner => banner ++ concat (replicate n kexinit)
  end.

(** One step from stage [s] to stage [s'] that sends [sent] keeps the
    bytes sent within the script of the stage. *)
Definition within_script (s s' : kk_state) (sent : list byte) : Prop :=
  forall (n : nat) (tail rest : list byte),
    script s' n = tail ++ rest ->
    exists n' rest', script s n' = sent ++ tail ++ rest'.

Definition COLON : byte := x3a.

(** [strchr(s, ch)] for a character other than NUL, on the bytes of the
    string before its NUL: the offset of the first occurrence. *)
Fixpoint strchr (s : list byte) (ch : byte) : option nat :=
  match s with
  | [] => None
  | b :: s' =>
    if Byte.eqb b ch then Some O
    else match strchr s' ch with
         | Some i => Some (S i)
         | None => None
         end
  end.

(** [host] and [service] as [main] takes them from its argument: the
    argument is cut at its first colon, and without a colon the service
    is ["ssh"]. *)
Definition host_service (arg : list byte) : list byte * list byte :=
  match strchr arg COLON with
  | Some i => (take i arg, drop (S i) arg)
  | None => (arg, bytes_of "ssh")
  end.

(** ** Vocabulary of the statements *)

(** The value the four length bytes denote, most significant first. *)
Definition declared_len (b : list byte) : Z :=
  Z.lor (Z.lor (Z.lor (Z.shiftl (byte_val (byte_at b 0)) 24)
                      (Z.shiftl (byte_val (byte_at b 1)) 16))
               (Z.shiftl (byte_val (byte_at b 2)) 8))
        (byte_val (byte_at b 3)).

(** The guard [len + 4 > sizeof conn->buf] where [size_t] has 32 bits. *)
Definition oversize_ilp32 (b : list byte) : bool :=
  ((int_of (declared_len b) mod 2 ^ 32 + 4) mod 2 ^ 32) >? Z.of_nat BUFSZ.

(** The shape every slot keeps: the array has [BUFSZ] cells and
    [buflen] stays within it. *)
Definition wf (c : kk_conn) : Prop :=
  length (buf c) = BUFSZ /\ (buflen c <= BUFSZ)%nat.

(** A connection just opened in a slot that [main] or [kk_close] zeroed. *)
Definition fresh (f : Z) (s : kk_state) : kk_conn :=
  mk_conn f s 0 (replicate BUFSZ x00).

(** Successive readable events on one connection, the [read] of each
    answering the next chunk, up to the call that closes it. *)
Fixpoint feed (c : kk_conn) (chunks : list (list byte)) : kk_conn * Z :=
  match chunks with
  | [] => (c, 0)
  | [d] => kk_input c (ReadOk d)
  | d :: rest =>
    let r := kk_input c (ReadOk d) in
    if is_closed (fst r) then r else feed (fst r) rest
  end.

(** The passes of the dispatch loop as one slot sees them: for each
    pass its poll entry and the answers of [read] and [write]; the
    connection at the end and the bytes sent in each pass. *)
Fixpoint run_slot (c : kk_conn)
    (passes : list (pollfd * read_res * list write_res))
  : option (kk_conn * list (list byte)) :=
  match passes with
  | [] => Some (c, [])
  | (p, r, ws) :: passes' =>
    match dispatch_slot p c r ws with
    | None => None
    | Some (c1, sent) =>
      match run_slot c1 passes' with
      | None => None
      | Some (c2, out) => Some (c2, sent :: out)
      end
    end
  end.

(** The descriptors a top-up opens from slot [i] on: one for each slot
    that is closed when the pass starts and for which [socket] and
    [connect] succeed. *)
Fixpoint opened (e : pass_env) (i : nat) (cs : list kk_conn) : list Z :=
  match cs with
  | [] => []
  | c :: cs' =>
    (if is_closed c then
       match connect_ans e i with Some f => [f] | None => [] end
     else [])
    ++ opened e (S i) cs'
  end.



(** The slots after the top-up loop of a pass. *)
Definition topup_conns (e : pass_env) (cs : list kk_conn) (k : Z)
  : list kk_conn :=
  fst (fst (fst (fst (topup e 0 cs k 0)))).

Definition INT_MAX : Z := 2 ^ 31 - 1.

(** A slot in [kk_kexinit] whose buffer is empty and still holds the
    byte 1 at offset 5. *)
Definition stale_conn : kk_conn :=
  mk_conn 3 kk_kexinit 0 (<[5%nat := x01]> (replicate BUFSZ x00)).


(** Stage, [buflen] and return value of a call. *)
Definition summary (r : kk_conn * Z) : kk_state * nat * Z :=
  (state (fst r), buflen (fst r), snd r).

(** The bytes the buffer holds, [buf[0 .. buflen)]. *)
Definition content (c : kk_conn) : list byte := take (buflen c) (buf c).

(** ** Bytes, integers and buffers: basic facts *)

Lemma byte_eqb_eq (a b : byte) : Byte.eqb a b = true <-> a = b.
Proof.
  split; [apply Byte.byte_dec_bl | apply Byte.byte_dec_lb].
Qed.

Lemma byte_eqb_neq (a b : byte) : Byte.eqb a b = false <-> a <> b.
Proof.
  split.
  - apply Byte.eqb_false.
  - intros Hne. destruct (Byte.eqb a b) eqn:E; [|reflexivity].
    apply byte_eqb_eq in E. contradiction.
Qed.

Lemma byte_val_range (b : byte) : 0 <= byte_val b < 256.
Proof.
  unfold byte_val. pose proof (Byte.to_N_bounded b) as H.
  split; [apply N2Z.is_nonneg|]. lia.
Qed.

Lemma byte_val_inj (a b : byte) : byte_val a = byte_val b -> a = b.
Proof.
  unfold byte_val. intros H. apply N2Z.inj in H.
  apply (f_equal Byte.of_N) in H. rewrite !Byte.of_to_N in H. congruence.
Qed.

Lemma int_of_small (z : Z) : - 2 ^ 31 <= z < 2 ^ 31 -> int_of z = z.
Proof.
  intros H. unfold int_of. rewrite Z.mod_small; lia.
Qed.

Lemma declared_len_nonneg (b : list byte) : 0 <= declared_len b.
Proof.
  unfold declared_len.
  repeat (apply Z.lor_nonneg; split);
    try (apply Z.shiftl_nonneg); apply byte_val_range.
Qed.

Lemma packet_len_declared (b : list byte) :
  packet_len b = size_of_int (int_of (declared_len b)).
Proof. reflexivity. Qed.

Lemma packet_len_small (b : list byte) :
  declared_len b < 2 ^ 31 -> packet_len b = declared_len b.
Proof.
  intros H. pose proof (declared_len_nonneg b) as H0.
  rewrite packet_len_declared, int_of_small by lia.
  unfold size_of_int. apply Z.mod_small. lia.
Qed.

Lemma store_read_nil (c : kk_conn) : store_read c [] = c.
Proof.
  destruct c as [f s n b]. unfold store_read. simpl.
  rewrite take_nil. simpl. rewrite Nat.add_0_r. reflexivity.
Qed.

Lemma length_memmove_front (b : list byte) (src n : nat) :
  (src + n <= length b)%nat -> length (memmove_front b src n) = length b.
Proof.
  intros H. unfold memmove_front.
  rewrite length_app, length_take, !length_drop. lia.
Qed.

Lemma take_memmove_front (b : list byte) (src n : nat) :
  (src + n <= length b)%nat ->
  take n (memmove_front b src n) = take n (drop src b).
Proof.
  intros H. unfold memmove_front.
  rewrite take_app_le by (rewrite length_take, length_drop; lia).
  rewrite take_take. f_equal. lia.
Qed.

(** The [kk_kexinit] arm once a frame whose declared length fits the
    buffer is complete. *)
Lemma input_kexinit_frame (c : kk_conn) :
  (4 <= buflen c)%nat ->
  declared_len (buf c) + 4 <= Z.of_nat BUFSZ ->
  declared_len (buf c) + 4 <= Z.of_nat (buflen c) ->
  input_kexinit c =
    if Byte.eqb (byte_at (buf c) 5) x01 then (kk_close c, 0)
    else
      let eop := Z.to_nat (declared_len (buf c) + 4) in
      (mk_conn (fd c) (state c) (buflen c - eop)%nat
               (memmove_front (buf c) eop (buflen c - eop)), 0).
Proof.
  intros H4 Hcap Hall.
  pose proof (declared_len_nonneg (buf c)) as H0.
  assert (HB : Z.of_nat BUFSZ = 2048) by reflexivity.
  unfold input_kexinit.
  destruct (Nat.ltb_spec (buflen c) 4) as [?|_]; [lia|].
  rewrite packet_len_small by lia.
  assert (Hadd : size_add (declared_len (buf c)) 4 = declared_len (buf c) + 4).
  { unfold size_add. apply Z.mod_small. lia. }
  rewrite Hadd.
  destruct (Z.gtb_spec (declared_len (buf c) + 4) (Z.of_nat BUFSZ)) as [?|_];
    [lia|].
  destruct (Nat.ltb_spec (buflen c) (Z.to_nat (declared_len (buf c) + 4)))
    as [?|_]; [lia|].
  reflexivity.
Qed.

Lemma wf_kk_close (c : kk_conn) : wf (kk_close c).
Proof.
  split; cbn [kk_close buf buflen]; [apply length_replicate | lia].
Qed.

Lemma wf_store_read (c : kk_conn) (data : list byte) :
  wf c -> wf (store_read c data).
Proof.
  intros [Hl Hn]. unfold store_read, wf. cbn [buf buflen].
  rewrite length_app, length_drop, length_take, Hl. lia.
Qed.

Lemma store_read_state (c : kk_conn) (data : list byte) :
  state (store_read c data) = state c.
Proof. reflexivity. Qed.

Lemma kk_input_ok (c : kk_conn) (data : list byte) :
  buflen c <> BUFSZ ->
  kk_input c (ReadOk data) = input_switch (store_read c data).
Proof.
  intros H. unfold kk_input.
  destruct (Nat.eqb_spec (buflen c) BUFSZ); [contradiction | reflexivity].
Qed.

(** A byte that this [read] did not store is the one that was there. *)
Lemma store_read_beyond (c : kk_conn) (data : list byte) (i : nat) :
  (length data <= i)%nat ->
  (length data <= BUFSZ - buflen c)%nat ->
  byte_at (buf (store_read c data)) i = byte_at (buf c) i.
Proof.
  intros Hi Hroom. unfold store_read, byte_at. cbn [buf].
  rewrite take_ge by lia.
  rewrite app_nth2 by lia.
  rewrite <- (take_drop (length data) (buf c)) at 2.
  destruct (Nat.le_gt_cases (length data) (length (buf c))) as [Hle|Hgt].
  - rewrite app_nth2 by (rewrite length_take; lia).
    rewrite length_take. f_equal. lia.
  - rewrite drop_ge by lia. rewrite app_nil_r, take_ge by lia.
    rewrite nth_overflow by (simpl; lia).
    rewrite nth_overflow by lia. reflexivity.
Qed.

(** ** The receive step *)

(** C1 (the code departs from the claim).  A [read] stores its bytes at
    the start of the buffer, over the bytes already there, while
    [buflen] grows by the count: the banner [SSH-2.0-OpenSSH_9.0\r\n]
    delivered in one read moves the connection to [kk_banner] with an
    empty buffer, and the same bytes delivered in two reads, or one byte
    per read, close the connection with return value -1. *)
Theorem C1_fragmented_reads_diverge :
  let c0 := fresh 3 kk_connected in
  let whole := bytes_of "SSH-2.0-OpenSSH_9.0" ++ [CR; LF] in
  let part1 := bytes_of "SSH-2.0-Open" in
  let part2 := bytes_of "SSH_9.0" ++ [CR; LF] in
  whole = part1 ++ part2
  /\ summary (feed c0 [whole]) = (kk_banner, O, 0)
  /\ summary (feed c0 [part1; part2]) = (kk_closed, O, -1)
  /\ summary (feed c0 (map (fun b => [b]) whole)) = (kk_closed, O, -1)
  /\ content (store_read (fst (kk_input c0 (ReadOk part1))) part2)
     = part2 ++ bytes_of "pen" ++ replicate 9 x00.
Proof.
  vm_compute. repeat split; reflexivity.
Qed.

(** C3, the claim as stated fails: a zero-byte read on a connection
    that waits for its banner leaves it open, in [kk_connected], and
    [kk_input] returns 0. *)
Lemma C3_zero_read_stays_open :
  kk_input (fresh 3 kk_connected) (ReadOk []) = (fresh 3 kk_connected, 0)
  /\ state (fst (kk_input (fresh 3 kk_connected) (ReadOk []))) <> kk_closed.
Proof.
  split; [vm_compute; reflexivity | vm_compute; discriminate].
Qed.

(** C3, amended.  A receive that returns zero bytes is not a failure of
    its own: buffer and [buflen] are unchanged and the parse of the
    current stage runs on the bytes already buffered, so a connection
    that still waits for data stays open in its stage and the call
    returns 0.  The receive itself closes the connection only on a read
    error or on a full buffer. *)
Theorem C3_zero_read_is_no_failure (c : kk_conn) :
  buflen c <> BUFSZ ->
  kk_input c (ReadOk []) = input_switch c
  /\ (state c = kk_connected ->
      (buflen c <= S (scan_cr (content c)))%nat ->
      kk_input c (ReadOk []) = (c, 0))
  /\ (state c = kk_banner -> kk_input c (ReadOk []) = (c, 0))
  /\ (state c = kk_kexinit -> (buflen c < 4)%nat ->
      kk_input c (ReadOk []) = (c, 0))
  /\ kk_input c ReadErr = (kk_close c, -1).
Proof.
  intros Hroom.
  assert (Hsw : kk_input c (ReadOk []) = input_switch c).
  { rewrite kk_input_ok by assumption. rewrite store_read_nil. reflexivity. }
  repeat split.
  - exact Hsw.
  - intros Hs Hscan. rewrite Hsw. unfold input_switch. rewrite Hs.
    unfold input_connected. fold (content c).
    destruct (Z.geb_spec (Z.of_nat (scan_cr (content c)))
                         (Z.of_nat (buflen c) - 1)); [reflexivity | lia].
  - intros Hs. rewrite Hsw. unfold input_switch. rewrite Hs. reflexivity.
  - intros Hs Hlt. rewrite Hsw. unfold input_switch. rewrite Hs.
    unfold input_kexinit.
    destruct (Nat.ltb_spec (buflen c) 4); [reflexivity | lia].
  - unfold kk_input, fail. destruct (buflen c =? BUFSZ)%nat; reflexivity.
Qed.

Lemma C3_zero_read_witness :
  kk_input (fresh 3 kk_banner) (ReadOk []) = (fresh 3 kk_banner, 0).
Proof.
  assert (Hroom : buflen (fresh 3 kk_banner) <> BUFSZ)
    by (vm_compute; discriminate).
  destruct (C3_zero_read_is_no_failure (fresh 3 kk_banner) Hroom)
    as (_ & _ & Hbanner & _).
  apply Hbanner. reflexivity.
Defined.

(** ** Framed packets in the [kk_kexinit] stage *)

Section KexinitFrame.

Variables (c : kk_conn) (data : list byte).

(** The connection as the parse sees it, after the [read]. *)
Let c1 : kk_conn := store_read c data.
Let L : Z := declared_len (buf c1).

Hypothesis Hwf : wf c.
Hypothesis Hstate : state c = kk_kexinit.
Hypothesis Hroom : buflen c <> BUFSZ.
Hypothesis Hhdr : (4 <= buflen c1)%nat.
Hypothesis Hcap : L + 4 <= Z.of_nat BUFSZ.
Hypothesis Hcomplete : L + 4 <= Z.of_nat (buflen c1).

Lemma kk_input_frame :
  kk_input c (ReadOk data) =
    if Byte.eqb (byte_at (buf c1) 5) x01 then (kk_close c, 0)
    else
      let eop := Z.to_nat (L + 4) in
      (mk_conn (fd c) kk_kexinit (buflen c1 - eop)%nat
               (memmove_front (buf c1) eop (buflen c1 - eop)), 0).
Proof using Hstate Hroom Hhdr Hcap Hcomplete.
  rewrite kk_input_ok by assumption.
  unfold input_switch. rewrite store_read_state, Hstate.
  fold c1. rewrite input_kexinit_frame by assumption.
  fold L. unfold c1 at 3 4. rewrite store_read_state, Hstate.
  reflexivity.
Qed.

(** C6.  In the [kk_kexinit] stage, when the buffer holds a complete
    frame of declared length [L] with [L + 4] within the capacity and
    the type byte is not the disconnect type, the call removes exactly
    [L + 4] bytes from the front of the buffer: [buflen] drops by
    [L + 4] and the bytes that followed the frame are the new content,
    in their order; the connection stays in [kk_kexinit]. *)
Theorem C6_frame_consumed :
  byte_at (buf c1) 5 <> x01 ->
  exists c2,
    kk_input c (ReadOk data) = (c2, 0)
    /\ state c2 = kk_kexinit
    /\ Z.of_nat (buflen c2) = Z.of_nat (buflen c1) - (L + 4)
    /\ content c2 = drop (Z.to_nat (L + 4)) (content c1).
Proof using Hwf Hstate Hroom Hhdr Hcap Hcomplete.
  intros Htype. rewrite kk_input_frame.
  apply byte_eqb_neq in Htype. rewrite Htype.
  pose proof (declared_len_nonneg (buf c1)) as H0. fold L in H0.
  destruct (wf_store_read c data Hwf) as [Hlen Hle]. fold c1 in Hlen, Hle.
  eexists. split; [reflexivity|].
  cbn [state buflen buf]. repeat split.
  - lia.
  - unfold content. cbn [buflen buf].
    rewrite take_memmove_front by lia.
    rewrite take_drop_commute. f_equal. f_equal. lia.
Qed.

(** C9.  Once a frame of declared length [L] is complete, the call
    closes the connection as a disconnect exactly when the byte at
    buffer offset 5 is 1, whatever [L] is: for [L < 2] that offset is
    not inside the frame, and when the [read] stored at most five
    bytes the byte inspected is the one the buffer held before. *)
Theorem C9_type_byte_is_offset_5 :
  (kk_input c (ReadOk data) = (kk_close c, 0)
     <-> byte_at (buf c1) 5 = x01)
  /\ (L < 2 -> L + 4 <= 5)
  /\ ((length data <= 5)%nat ->
      byte_at (buf c1) 5 = byte_at (buf c) 5).
Proof using Hwf Hstate Hroom Hhdr Hcap Hcomplete.
  repeat split.
  - rewrite kk_input_frame.
    destruct (Byte.eqb (byte_at (buf c1) 5) x01) eqn:E.
    + intros _. apply byte_eqb_eq. exact E.
    + intros Heq. apply (f_equal (fun r => state (fst r))) in Heq.
      discriminate Heq.
  - intros Htype. rewrite kk_input_frame.
    apply byte_eqb_eq in Htype. rewrite Htype. reflexivity.
  - lia.
  - intros Hshort. unfold c1, store_read, byte_at. cbn [buf].
    destruct Hwf as [Hlen Hle].
    set (d := take (BUFSZ - buflen c) data).
    assert (Hd : (length d <= 5)%nat).
    { unfold d. rewrite length_take. lia. }
    rewrite app_nth2 by lia.
    rewrite <- (take_drop (length d) (buf c)) at 2.
    assert (HB : BUFSZ = 2048%nat) by reflexivity.
    rewrite app_nth2 by (rewrite length_take; lia).
    rewrite length_take. f_equal. lia.
Qed.

(** C2, amended.  In the [kk_kexinit] stage, when the buffer after the
    [read] holds a complete frame whose declared length fits the
    capacity and the byte at buffer offset 5 is 1, the call closes the
    connection and returns 0.  (The six bytes [00 00 00 02 01 00]
    carry 01 at offset 4 and 00 at offset 5; a disconnect frame of
    that size is [00 00 00 02 00 01].) *)
Theorem C2_disconnect_closes_cleanly :
  byte_at (buf c1) 5 = x01 ->
  kk_input c (ReadOk data) = (kk_close c, 0)
  /\ state (kk_close c) = kk_closed.
Proof using Hstate Hroom Hhdr Hcap Hcomplete.
  intros Htype. split; [|reflexivity].
  rewrite kk_input_frame.
  apply byte_eqb_eq in Htype. rewrite Htype. reflexivity.
Qed.

End KexinitFrame.

Lemma wf_fresh (f : Z) (s : kk_state) : wf (fresh f s).
Proof.
  split; cbn [fresh buf buflen]; [apply length_replicate | lia].
Qed.

Lemma C6_frame_consumed_witness :
  exists c2,
    kk_input (fresh 3 kk_kexinit)
             (ReadOk [x00; x00; x00; x02; x08; x14; xaa; xbb]) = (c2, 0)
    /\ state c2 = kk_kexinit
    /\ buflen c2 = 2%nat
    /\ content c2 = [xaa; xbb].
Proof.
  destruct (C6_frame_consumed (fresh 3 kk_kexinit)
              [x00; x00; x00; x02; x08; x14; xaa; xbb])
    as (c2 & Hret & Hst & Hlen & Hcont).
  - apply wf_fresh.
  - reflexivity.
  - vm_compute. discriminate.
  - apply Nat.leb_le. vm_compute. reflexivity.
  - apply Z.leb_le. vm_compute. reflexivity.
  - apply Z.leb_le. vm_compute. reflexivity.
  - vm_compute. discriminate.
  - exists c2. split; [exact Hret|]. split; [exact Hst|]. split.
    + apply Nat2Z.inj. rewrite Hlen. vm_compute. reflexivity.
    + rewrite Hcont. vm_compute. reflexivity.
Defined.

Lemma C9_type_byte_witness :
  kk_input stale_conn (ReadOk [x00; x00; x00; x00]) = (kk_close stale_conn, 0)
  /\ byte_at (buf (store_read stale_conn [x00; x00; x00; x00])) 5
     = byte_at (buf stale_conn) 5.
Proof.
  destruct (C9_type_byte_is_offset_5 stale_conn [x00; x00; x00; x00])
    as (Hiff & _ & Hstale).
  - split; [vm_compute; reflexivity | apply Nat.leb_le; vm_compute; reflexivity].
  - reflexivity.
  - vm_compute. discriminate.
  - apply Nat.leb_le. vm_compute. reflexivity.
  - apply Z.leb_le. vm_compute. reflexivity.
  - apply Z.leb_le. vm_compute. reflexivity.
  - split.
    + apply Hiff. vm_compute. reflexivity.
    + apply Hstale. apply Nat.leb_le. vm_compute. reflexivity.
Defined.

(** C2, the claim as stated fails: the bytes [00 00 00 02] and then
    [01 00], in two reads, close the connection with return value -1 (the
    second read lands on the first, and the length decoded is
    0x01000002); in one read the six bytes are consumed as a packet that
    is no disconnect and the connection stays in [kk_kexinit]. *)
Lemma C2_short_frame_counterexample :
  summary (feed (fresh 3 kk_kexinit) [[x00; x00; x00; x02]; [x01; x00]])
    = (kk_closed, O, -1)
  /\ summary (kk_input (fresh 3 kk_kexinit)
                (ReadOk [x00; x00; x00; x02; x01; x00]))
     = (kk_kexinit, O, 0).
Proof.
  vm_compute. split; reflexivity.
Qed.

Lemma C2_disconnect_witness :
  kk_input (fresh 3 kk_kexinit) (ReadOk [x00; x00; x00; x02; x00; x01])
    = (kk_close (fresh 3 kk_kexinit), 0)
  /\ state (kk_close (fresh 3 kk_kexinit)) = kk_closed.
Proof.
  apply (C2_disconnect_closes_cleanly (fresh 3 kk_kexinit)
           [x00; x00; x00; x02; x00; x01]).
  - reflexivity.
  - vm_compute. discriminate.
  - apply Nat.leb_le. vm_compute. reflexivity.
  - apply Z.leb_le. vm_compute. reflexivity.
  - apply Z.leb_le. vm_compute. reflexivity.
  - vm_compute. reflexivity.
Defined.

(** ** The oversize guard *)

Lemma lor_lt_pow2 (a b n : Z) :
  0 < n -> 0 <= a < 2 ^ n -> 0 <= b < 2 ^ n -> Z.lor a b < 2 ^ n.
Proof.
  intros Hn Ha Hb.
  assert (H0 : 0 <= Z.lor a b) by (apply Z.lor_nonneg; lia).
  assert (Hlog : forall x, 0 <= x < 2 ^ n -> Z.log2 x < n).
  { intros x Hx. destruct (Z.eq_dec x 0) as [->|Hne].
    - simpl. lia.
    - apply Z.log2_lt_pow2; lia. }
  destruct (Z.eq_dec (Z.lor a b) 0) as [->|Hne].
  - apply Z.pow_pos_nonneg; lia.
  - apply Z.log2_lt_pow2; [lia|].
    rewrite Z.log2_lor by lia.
    apply Z.max_lub_lt; apply Hlog; assumption.
Qed.

Lemma declared_len_lt (b : list byte) : declared_len b < 2 ^ 32.
Proof.
  unfold declared_len.
  pose proof (byte_val_range (byte_at b 0)).
  pose proof (byte_val_range (byte_at b 1)).
  pose proof (byte_val_range (byte_at b 2)).
  pose proof (byte_val_range (byte_at b 3)).
  rewrite !Z.shiftl_mul_pow2 by lia.
  change (2 ^ 24) with 16777216. change (2 ^ 16) with 65536.
  change (2 ^ 8) with 256.
  assert (H32 : 2 ^ 32 = 4294967296) by reflexivity.
  apply lor_lt_pow2; [lia| |lia].
  split; [repeat (apply Z.lor_nonneg; split); lia|].
  apply lor_lt_pow2; [lia| |lia].
  split; [repeat (apply Z.lor_nonneg; split); lia|].
  apply lor_lt_pow2; lia.
Qed.

(** When the guard [len + 4 > sizeof conn->buf] fires, in terms of the
    length the four bytes denote. *)
Lemma oversize_guard (b : list byte) :
  (size_add (packet_len b) 4 >? Z.of_nat BUFSZ) = true
  <-> Z.of_nat BUFSZ < declared_len b + 4 /\ declared_len b < 2 ^ 32 - 4.
Proof.
  pose proof (declared_len_nonneg b) as H0.
  pose proof (declared_len_lt b) as H1.
  assert (HB : Z.of_nat BUFSZ = 2048) by reflexivity.
  rewrite HB, Z.gtb_ltb, Z.ltb_lt.
  rewrite packet_len_declared. unfold size_add, size_of_int, int_of.
  set (d := declared_len b) in *.
  change (2 ^ 31) with 2147483648 in *.
  change (2 ^ 32) with 4294967296 in *.
  change (2 ^ 64) with 18446744073709551616.
  destruct (Z_lt_le_dec d 2147483648) as [Hlo|Hhi].
  - rewrite (Z.mod_small (d + 2147483648)) by lia.
    rewrite (Z.mod_small (d + 2147483648 - 2147483648)) by lia.
    rewrite Z.mod_small by lia. lia.
  - replace ((d + 2147483648) mod 4294967296) with (d - 2147483648).
    2:{ apply Z.mod_unique with (q := 1); lia. }
    replace ((d - 2147483648 - 2147483648) mod 18446744073709551616)
      with (d - 4294967296 + 18446744073709551616).
    2:{ apply Z.mod_unique with (q := -1); lia. }
    destruct (Z_lt_le_dec d (4294967296 - 4)) as [Hin|Hwrap].
    + rewrite Z.mod_small by lia. lia.
    + replace ((d - 4294967296 + 18446744073709551616 + 4)
                 mod 18446744073709551616) with (d - 4294967296 + 4).
      2:{ apply Z.mod_unique with (q := 1); lia. }
      lia.
Qed.

(** A declared length whose frame exceeds the capacity closes the
    connection with return value -1 as soon as the four length bytes are
    buffered, as long as [len + 4] does not wrap. *)
Lemma kk_input_oversize (c : kk_conn) (data : list byte) :
  state c = kk_kexinit ->
  buflen c <> BUFSZ ->
  (4 <= buflen (store_read c data))%nat ->
  Z.of_nat BUFSZ < declared_len (buf (store_read c data)) + 4 ->
  declared_len (buf (store_read c data)) < 2 ^ 32 - 4 ->
  kk_input c (ReadOk data) = (kk_close c, -1).
Proof.
  intros Hs Hroom H4 Hbig Hnowrap.
  rewrite kk_input_ok by assumption.
  unfold input_switch. rewrite store_read_state, Hs.
  unfold input_kexinit.
  destruct (Nat.ltb_spec (buflen (store_read c data)) 4); [lia|].
  assert (Hg : (size_add (packet_len (buf (store_read c data))) 4
                  >? Z.of_nat BUFSZ) = true)
    by (apply oversize_guard; split; assumption).
  rewrite Hg. reflexivity.
Qed.

(** With a 32-bit [size_t] the guard fires for the same lengths. *)
Lemma oversize_guard_ilp32 (b : list byte) :
  oversize_ilp32 b = (size_add (packet_len b) 4 >? Z.of_nat BUFSZ).
Proof.
  pose proof (declared_len_nonneg b) as H0.
  pose proof (declared_len_lt b) as H1.
  destruct (size_add (packet_len b) 4 >? Z.of_nat BUFSZ) eqn:E.
  - apply oversize_guard in E as [Hbig Hnowrap].
    unfold oversize_ilp32, int_of.
    assert (HB : Z.of_nat BUFSZ = 2048) by reflexivity.
    rewrite HB in *. rewrite Z.gtb_ltb. apply Z.ltb_lt.
    rewrite Zminus_mod_idemp_l.
    replace (declared_len b + 2 ^ 31 - 2 ^ 31) with (declared_len b) by lia.
    change (2 ^ 32) with 4294967296 in *.
    rewrite (Z.mod_small (declared_len b)) by lia.
    rewrite Z.mod_small by lia. lia.
  - assert (Hn : ~ (Z.of_nat BUFSZ < declared_len b + 4
                    /\ declared_len b < 2 ^ 32 - 4)).
    { intros H. apply oversize_guard in H. congruence. }
    unfold oversize_ilp32, int_of.
    assert (HB : Z.of_nat BUFSZ = 2048) by reflexivity.
    rewrite HB in *. rewrite Z.gtb_ltb. apply Z.ltb_ge.
    rewrite Zminus_mod_idemp_l.
    replace (declared_len b + 2 ^ 31 - 2 ^ 31) with (declared_len b) by lia.
    change (2 ^ 32) with 4294967296 in *.
    rewrite (Z.mod_small (declared_len b)) by lia.
    destruct (Z_lt_le_dec (declared_len b) (4294967296 - 4)) as [Hin|Hwrap].
    + rewrite Z.mod_small by lia. lia.
    + replace ((declared_len b + 4) mod 4294967296)
        with (declared_len b + 4 - 4294967296).
      2:{ apply Z.mod_unique with (q := 1); lia. }
      lia.
Qed.

(** C7 (the code departs from the claim).  The length bytes
    [ff ff ff fc] declare 4294967292 bytes, far beyond the capacity, yet
    [len + 4] wraps to 0 and passes the guard: the connection stays open
    in [kk_kexinit] with its six bytes still buffered.  With
    [ff ff ff ff] the sum wraps to 3 and three bytes are consumed. *)
Theorem C7_wrapped_length_passes_guard :
  let c0 := fresh 3 kk_kexinit in
  let data := [xff; xff; xff; xfc; x00; x00] in
  let data' := [xff; xff; xff; xff; x00; x00] in
  declared_len (buf (store_read c0 data)) = 4294967292
  /\ Z.of_nat BUFSZ < declared_len (buf (store_read c0 data)) + 4
  /\ summary (kk_input c0 (ReadOk data)) = (kk_kexinit, 6%nat, 0)
  /\ declared_len (buf (store_read c0 data')) = 4294967295
  /\ summary (kk_input c0 (ReadOk data')) = (kk_kexinit, 3%nat, 0).
Proof.
  vm_compute. repeat split; reflexivity.
Qed.

(** ** The peer banner in the [kk_connected] stage *)

Lemma scan_cr_line (line t : list byte) :
  CR ∉ line -> scan_cr (line ++ CR :: t) = length line.
Proof.
  induction line as [|b line IH]; intros Hno.
  - reflexivity.
  - apply not_elem_of_cons in Hno as [Hne Hno].
    cbn [app scan_cr length].
    assert (E : Byte.eqb b CR = false) by (apply byte_eqb_neq; congruence).
    rewrite E. f_equal. apply IH. exact Hno.
Qed.

Lemma strncmp_zero_iff (n : nat) :
  forall s p : list byte,
    length p = n -> x00 ∉ p -> (strncmp s p n = 0 <-> take n s = p).
Proof.
  induction n as [|n IH]; intros s p Hlen Hnul.
  - destruct p; [|discriminate]. simpl. rewrite take_0. tauto.
  - destruct p as [|q p]; [discriminate|].
    apply not_elem_of_cons in Hnul as [Hq Hnul].
    injection Hlen as Hlen.
    assert (Hdiff : forall a : byte, a <> q -> byte_val a - byte_val q <> 0).
    { intros a Hne Hz. apply Hne, byte_val_inj. lia. }
    destruct s as [|a s]; cbn [strncmp hd tl].
    + assert (E : Byte.eqb x00 q = false) by (apply byte_eqb_neq; exact Hq).
      rewrite E. cbn [negb]. split.
      * intros Hz. exfalso. exact (Hdiff x00 Hq Hz).
      * discriminate.
    + destruct (Byte.eqb a q) eqn:E; cbn [negb].
      * apply byte_eqb_eq in E. subst a.
        assert (E0 : Byte.eqb q x00 = false)
          by (apply byte_eqb_neq; congruence).
        rewrite E0, (IH s p Hlen Hnul). cbn [take]. split.
        -- intros ->. reflexivity.
        -- intros H. injection H as H. exact H.
      * apply byte_eqb_neq in E. split.
        -- intros Hz. exfalso. exact (Hdiff a E Hz).
        -- cbn [take]. intros H. injection H as H _. contradiction.
Qed.

Lemma prefix_no_nul : x00 ∉ bytes_of "SSH-2.0-".
Proof.
  change (bytes_of "SSH-2.0-")
    with [x53; x53; x48; x2d; x32; x2e; x30; x2d].
  rewrite !not_elem_of_cons.
  repeat split; try discriminate. apply not_elem_of_nil.
Qed.

Section BannerLine.

Variables (c : kk_conn) (data line rest : list byte) (x : byte).

Let c1 : kk_conn := store_read c data.

Hypothesis Hwf : wf c.
Hypothesis Hstate : state c = kk_connected.
Hypothesis Hroom : buflen c <> BUFSZ.
Hypothesis Hcontent : content c1 = line ++ CR :: x :: rest.
Hypothesis Hline : CR ∉ line.

(** The bytes of the array above [buflen]. *)
Let tail_bytes : list byte := drop (buflen c1) (buf c1).

Lemma banner_buf : buf c1 = line ++ CR :: x :: rest ++ tail_bytes.
Proof using Hcontent.
  rewrite <- (take_drop (buflen c1) (buf c1)).
  fold (content c1). rewrite Hcontent. fold tail_bytes.
  rewrite <- app_assoc. reflexivity.
Qed.

Lemma banner_buflen : buflen c1 = (length line + 2 + length rest)%nat.
Proof using Hwf Hcontent.
  destruct (wf_store_read c data Hwf) as [Hlen Hle]. fold c1 in Hlen, Hle.
  pose proof (f_equal length Hcontent) as H.
  unfold content in H. rewrite length_take, length_app in H.
  cbn [length] in H. clear - H Hle Hlen. lia.
Qed.

Lemma banner_terminated :
  <[length line := x00]> (buf c1) = line ++ x00 :: x :: rest ++ tail_bytes.
Proof using Hcontent.
  rewrite banner_buf.
  rewrite insert_app_r_alt by apply Nat.le_refl.
  rewrite Nat.sub_diag. reflexivity.
Qed.

Lemma banner_prefix_check :
  strncmp (line ++ x00 :: x :: rest ++ tail_bytes) (bytes_of "SSH-2.0-") 8 = 0
  <-> take 8 line = bytes_of "SSH-2.0-".
Proof.
  rewrite (strncmp_zero_iff 8).
  2: reflexivity.
  2:{ apply prefix_no_nul. }
  destruct (Nat.le_gt_cases 8 (length line)) as [Hlong|Hshort].
  - rewrite take_app_le by lia. tauto.
  - split; intros H.
    + exfalso.
      assert (Hin : x00 ∈ take 8 (line ++ x00 :: x :: rest ++ tail_bytes)).
      { apply list_elem_of_lookup. exists (length line).
        rewrite lookup_take_lt by lia.
        rewrite lookup_app_r by lia. rewrite Nat.sub_diag. reflexivity. }
      rewrite H in Hin. exact (prefix_no_nul Hin).
    + exfalso. apply (f_equal length) in H.
      rewrite length_take in H.
      change (length (bytes_of "SSH-2.0-")) with 8%nat in H. lia.
Qed.

(** What the call does with a buffered line, its carriage return and the
    byte after it. *)
Lemma input_banner_line :
  let ok := x = LF /\ take 8 line = bytes_of "SSH-2.0-"
            /\ (length line <= 253)%nat in
  (ok -> exists c2, kk_input c (ReadOk data) = (c2, 0)
                    /\ state c2 = kk_banner /\ fd c2 = fd c
                    /\ buflen c2 = length rest /\ content c2 = rest
                    /\ wf c2)
  /\ (~ ok -> kk_input c (ReadOk data) = (kk_close c, -1)).
Proof using Hwf Hstate Hroom Hcontent Hline.
  cbv zeta.
  destruct (wf_store_read c data Hwf) as [Hlen Hle]. fold c1 in Hlen, Hle.
  pose proof banner_buflen as Hn.
  rewrite kk_input_ok by assumption.
  unfold input_switch. rewrite store_read_state, Hstate.
  fold c1. unfold input_connected. fold (content c1).
  rewrite Hcontent, scan_cr_line by assumption.
  destruct (Z.geb_spec (Z.of_nat (length line)) (Z.of_nat (buflen c1) - 1))
    as [Hge|_]; [lia|].
  rewrite banner_terminated.
  assert (Hx : byte_at (line ++ x00 :: x :: rest ++ tail_bytes)
                       (S (length line)) = x).
  { unfold byte_at. rewrite app_nth2 by lia.
    replace (S (length line) - length line)%nat with 1%nat by lia.
    reflexivity. }
  rewrite Hx.
  pose proof banner_prefix_check as Hpre.
  split.
  - intros (Hlf & Hpfx & Hshort).
    assert (E1 : Byte.eqb x LF = true) by (apply byte_eqb_eq; exact Hlf).
    assert (E2 : (Z.of_nat (S (S (length line))) >? 255) = false).
    { destruct (Z.gtb_spec (Z.of_nat (S (S (length line)))) 255);
        [lia | reflexivity]. }
    assert (E3 : (strncmp (line ++ x00 :: x :: rest ++ tail_bytes)
                          (bytes_of "SSH-2.0-") 8 =? 0) = true).
    { apply Z.eqb_eq, Hpre. exact Hpfx. }
    rewrite E1, E2, E3. cbn [negb orb].
    assert (Hlen' : length (line ++ x00 :: x :: rest ++ tail_bytes) = BUFSZ)
      by (rewrite <- banner_terminated, length_insert; exact Hlen).
    eexists. split; [reflexivity|]. split; [reflexivity|].
    split; [reflexivity|]. cbn [buflen]. split; [lia|].
    split.
    2:{ split; cbn [buf buflen]; [|lia].
        rewrite length_memmove_front; [exact Hlen' | lia]. }
    unfold content. cbn [buflen buf].
    rewrite take_memmove_front by lia.
    replace (line ++ x00 :: x :: rest ++ tail_bytes)
      with ((line ++ [x00; x]) ++ rest ++ tail_bytes)
      by (rewrite <- app_assoc; reflexivity).
    rewrite drop_app_length'.
    2:{ rewrite length_app. cbn [length]. lia. }
    rewrite take_app_length'; [reflexivity | lia].
  - intros Hnot.
    destruct (Byte.eqb x LF) eqn:E1; cbn [negb orb]; [|reflexivity].
    destruct (Z.gtb_spec (Z.of_nat (S (S (length line)))) 255) as [?|E2];
      cbn [orb]; [reflexivity|].
    destruct (Z.eqb_spec (strncmp (line ++ x00 :: x :: rest ++ tail_bytes)
                                  (bytes_of "SSH-2.0-") 8) 0) as [E3|?];
      cbn [negb]; [|reflexivity].
    exfalso. apply Hnot. repeat split.
    + apply byte_eqb_eq. exact E1.
    + apply Hpre. exact E3.
    + lia.
Qed.

(** C5, amended.  In the [kk_connected] stage, when the buffered bytes
    are a line without carriage return, a carriage return, a byte [x]
    and whatever follows, the banner is accepted (the connection moves
    to [kk_banner], the call returns 0 and the bytes after the
    terminator remain) exactly when [x] is the line feed, the line
    begins with the eight bytes [SSH-2.0-] and the line is at most 253
    bytes long, that is at most 255 bytes with its terminator; in every
    other case the call closes the connection and returns -1. *)
Theorem C5_banner_accepted_iff :
  let ok := x = LF /\ take 8 line = bytes_of "SSH-2.0-"
            /\ (length line <= 253)%nat in
  (ok -> exists c2, kk_input c (ReadOk data) = (c2, 0)
                    /\ state c2 = kk_banner /\ content c2 = rest)
  /\ (~ ok -> kk_input c (ReadOk data) = (kk_close c, -1)).
Proof using Hwf Hstate Hroom Hcontent Hline.
  cbv zeta. destruct input_banner_line as [Hyes Hno]. split.
  - intros Hok. destruct (Hyes Hok) as (c2 & Hret & Hst & _ & _ & Hc & _).
    exists c2. auto.
  - exact Hno.
Qed.

End BannerLine.

(** C5, the claim as stated fails: a line of 254 bytes that begins with
    [SSH-2.0-] and ends in CR LF is within the 255 bytes of the claim,
    and the call closes the connection with return value -1; with 253
    bytes the banner is accepted. *)
Lemma C5_line_of_254_bytes_rejected :
  let line := bytes_of "SSH-2.0-" ++ replicate 246 x61 in
  let line' := bytes_of "SSH-2.0-" ++ replicate 245 x61 in
  length line = 254%nat
  /\ summary (kk_input (fresh 3 kk_connected) (ReadOk (line ++ [CR; LF])))
     = (kk_closed, O, -1)
  /\ summary (kk_input (fresh 3 kk_connected) (ReadOk (line' ++ [CR; LF])))
     = (kk_banner, O, 0).
Proof.
  vm_compute. repeat split; reflexivity.
Qed.

Lemma C5_banner_witness :
  exists c2,
    kk_input (fresh 3 kk_connected)
             (ReadOk (bytes_of "SSH-2.0-x" ++ [CR; LF; xaa])) = (c2, 0)
    /\ state c2 = kk_banner /\ content c2 = [xaa].
Proof.
  apply (C5_banner_accepted_iff (fresh 3 kk_connected)
           (bytes_of "SSH-2.0-x" ++ [CR; LF; xaa])
           (bytes_of "SSH-2.0-x") [xaa] LF).
  - apply wf_fresh.
  - reflexivity.
  - vm_compute. discriminate.
  - vm_compute. reflexivity.
  - change (bytes_of "SSH-2.0-x")
      with [x53; x53; x48; x2d; x32; x2e; x30; x2d; x78].
    rewrite !not_elem_of_cons.
    repeat split; try discriminate. apply not_elem_of_nil.
  - split; [reflexivity|]. split; [vm_compute; reflexivity|].
    apply Nat.leb_le. vm_compute. reflexivity.
Defined.

(** ** Sending: [kk_write], [kk_output] and the dispatch of one slot *)

(** A [kk_write] that returns 0 has sent its data in full, in order; one
    that returns -1 has sent a proper prefix. *)
Lemma kk_write_sent (ws : list write_res) :
  forall (data : list byte) (r : Z) (sent : list byte),
    kk_write ws data = Some (r, sent) ->
    (r = 0 /\ sent = data)
    \/ (r = -1 /\ exists rest, rest <> [] /\ data = sent ++ rest).
Proof.
  induction ws as [|w ws IH]; intros data r sent H.
  - destruct data; simpl in H; [|discriminate].
    injection H as <- <-. left. auto.
  - destruct data as [|b data].
    + simpl in H. injection H as <- <-. left. auto.
    + destruct w as [|n].
      * simpl in H. injection H as <- <-. right. split; [reflexivity|].
        exists (b :: data). split; [discriminate | reflexivity].
      * cbn [kk_write] in H.
        set (wlen := Nat.min n (length (b :: data))) in *.
        destruct (kk_write ws (drop wlen (b :: data)))
          as [[r' sent']|] eqn:E; [|discriminate].
        injection H as <- <-.
        destruct (IH _ _ _ E) as [[-> ->]|[-> (rest & Hne & Hd)]].
        -- left. split; [reflexivity|]. apply take_drop.
        -- right. split; [reflexivity|]. exists rest. split; [exact Hne|].
           rewrite <- app_assoc, <- Hd. symmetry. apply take_drop.
Qed.

(** One [write] that takes everything is enough. *)
Lemma kk_write_at_once (ws : list write_res) (data : list byte) (n : nat) :
  (length data <= n)%nat ->
  kk_write (WriteOk n :: ws) data = Some (0, data).
Proof.
  intros Hn. destruct data as [|b data]; [reflexivity|].
  cbn [kk_write]. rewrite Nat.min_r by exact Hn.
  rewrite drop_all, take_ge by reflexivity.
  destruct ws as [|[|?] ?]; cbn [kk_write]; rewrite app_nil_r; reflexivity.
Qed.













(** ** The poll loop *)

Lemma is_closed_true (c : kk_conn) :
  is_closed c = true <-> state c = kk_closed.
Proof.
  unfold is_closed. destruct (state c); simpl; split; congruence.
Qed.

Lemma is_closed_false (c : kk_conn) :
  is_closed c = false <-> state c <> kk_closed.
Proof.
  unfold is_closed. destruct (state c); simpl; split; congruence.
Qed.

(** The top-up loop leaves an open slot alone and puts its descriptor
    in the poll set. *)
Lemma topup_open_slot (e : pass_env) (cs : list kk_conn) :
  forall (i : nat) (k n : Z) cs1 ps k1 n1 d (j : nat) (c : kk_conn),
    topup e i cs k n = (cs1, ps, k1, n1, d) ->
    cs !! j = Some c ->
    is_closed c = false ->
    cs1 !! j = Some c
    /\ (exists p, ps !! j = Some p /\ pfd_fd p = fd c).
Proof.
  induction cs as [|c0 cs IH]; intros i k n cs1 ps k1 n1 d j c H Hj Hc.
  - discriminate.
  - cbn [topup] in H.
    destruct j as [|j].
    + injection Hj as ->. rewrite Hc in H. cbv beta iota zeta in H.
      rewrite Hc in H.
      destruct (topup e (S i) cs k (Z.of_nat i + 1))
        as [[[[cs2 ps2] k2] n2] d2].
      injection H as <- <- _ _ _. cbn [lookup list_lookup].
      split; [reflexivity|]. eexists. split; reflexivity.
    + destruct (if is_closed c0
                then let '(c1, r, d0) := kk_connect c0 (connect_ans e i) in
                     (c1, if r =? 0 then int_of (k + 1) else k, d0)
                else (c0, k, [])) as [[c1 k1'] d1].
      destruct (topup e (S i) cs k1'
                  (if is_closed c1 then n else Z.of_nat i + 1))
        as [[[[cs2 ps2] k2] n2] d2] eqn:E.
      injection H as <- <- _ _ _. cbn [lookup list_lookup].
      eapply IH; eassumption.
Qed.

(** [n] at the end of the top-up loop: unchanged when every slot is
    closed, beyond the index of the first slot otherwise. *)
Lemma topup_n (e : pass_env) (cs : list kk_conn) :
  forall (i : nat) (k n : Z) cs1 ps k1 n1 d,
    topup e i cs k n = (cs1, ps, k1, n1, d) ->
    n <= Z.of_nat i ->
    (Forall (fun c => state c = kk_closed) cs1 /\ n1 = n)
    \/ (Exists (fun c => state c <> kk_closed) cs1 /\ Z.of_nat i < n1).
Proof.
  induction cs as [|c0 cs IH]; intros i k n cs1 ps k1 n1 d H Hn.
  - injection H as <- _ _ <- _. left. split; [constructor | reflexivity].
  - cbn [topup] in H.
    destruct (if is_closed c0
              then let '(c1, r, d0) := kk_connect c0 (connect_ans e i) in
                   (c1, if r =? 0 then int_of (k + 1) else k, d0)
              else (c0, k, [])) as [[c1 k1'] d1].
    destruct (topup e (S i) cs k1'
                (if is_closed c1 then n else Z.of_nat i + 1))
      as [[[[cs2 ps2] k2] n2] d2] eqn:E.
    injection H as <- _ _ <- _.
    destruct (is_closed c1) eqn:Ec.
    + apply is_closed_true in Ec.
      destruct (IH _ _ _ _ _ _ _ _ E) as [[Hall Heq]|[Hex Hlt]]; [lia| |].
      * left. split; [constructor; assumption | exact Heq].
      * right. split; [apply Exists_cons_tl; exact Hex | lia].
    + apply is_closed_false in Ec.
      right. split; [apply Exists_cons_hd; exact Ec|].
      destruct (IH _ _ _ _ _ _ _ _ E) as [[_ Heq]|[_ Hlt]]; lia.
Qed.

(** [k] grows by the number of descriptors opened. *)
Lemma topup_k (e : pass_env) (cs : list kk_conn) :
  forall (i : nat) (k n : Z) cs1 ps k1 n1 d,
    topup e i cs k n = (cs1, ps, k1, n1, d) ->
    d = opened e i cs
    /\ (0 <= k -> k + Z.of_nat (length d) <= INT_MAX ->
        k1 = k + Z.of_nat (length d)).
Proof.
  induction cs as [|c0 cs IH]; intros i k n cs1 ps k1 n1 d H.
  - injection H as _ _ <- _ <-. split; [reflexivity|]. simpl. lia.
  - cbn [topup opened] in *.
    destruct (is_closed c0) eqn:Ec0.
    + destruct (connect_ans e i) as [f|]; cbn [kk_connect Z.eqb] in H.
      * destruct (topup e (S i) cs (int_of (k + 1))
                    (if is_closed (mk_conn f kk_connected (buflen c0) (buf c0))
                     then n else Z.of_nat i + 1))
          as [[[[cs2 ps2] k2] n2] d2] eqn:E.
        injection H as _ _ <- _ <-.
        destruct (IH _ _ _ _ _ _ _ _ E) as [Hd Hk].
        split; [rewrite Hd; reflexivity|].
        intros H0 Hmax. cbn [app length] in Hmax |- *.
        unfold INT_MAX in *.
        rewrite int_of_small in Hk by lia.
        rewrite Hk by lia. lia.
      * destruct (topup e (S i) cs k (if is_closed c0 then n else Z.of_nat i + 1))
          as [[[[cs2 ps2] k2] n2] d2] eqn:E.
        injection H as _ _ <- _ <-.
        destruct (IH _ _ _ _ _ _ _ _ E) as [Hd Hk].
        split; [rewrite Hd; reflexivity|]. exact Hk.
    + rewrite Ec0 in H.
      destruct (topup e (S i) cs k (Z.of_nat i + 1))
        as [[[[cs2 ps2] k2] n2] d2] eqn:E.
      injection H as _ _ <- _ <-.
      destruct (IH _ _ _ _ _ _ _ _ E) as [Hd Hk].
      split; [rewrite Hd; reflexivity|]. exact Hk.
Qed.


(** The dispatch loop leaves a slot whose poll entry has descriptor 0
    as it is. *)
Lemma dispatch_fd_zero (e : pass_env) (ps : list pollfd) :
  forall (i : nat) (cs cs' : list kk_conn) (j : nat) (c : kk_conn) (p : pollfd),
    dispatch e i ps cs = Some cs' ->
    cs !! j = Some c ->
    ps !! j = Some p ->
    pfd_fd p = 0 ->
    cs' !! j = Some c.
Proof.
  induction ps as [|p0 ps IH]; intros i cs cs' j c p H Hc Hp Hfd.
  - discriminate.
  - destruct cs as [|c0 cs]; [discriminate|].
    cbn [dispatch] in H.
    destruct (dispatch_slot _ c0 (read_ans e i) (write_ans e i))
      as [[c1 out]|] eqn:Es; [|discriminate].
    destruct (dispatch e (S i) ps cs) as [cs1|] eqn:Ed; [|discriminate].
    injection H as <-.
    destruct j as [|j].
    + injection Hc as ->. injection Hp as ->.
      unfold dispatch_slot in Es. cbn [pfd_fd] in Es. rewrite Hfd in Es.
      cbn [Z.eqb] in Es. injection Es as <- _. reflexivity.
    + cbn [lookup list_lookup] in *. eapply IH; eassumption.
Qed.

Lemma kexkill_pass_fd_zero (e : pass_env) (cs : list kk_conn) (k : Z)
    (j : nat) (c : kk_conn) :
  cs !! j = Some c ->
  state c <> kk_closed ->
  fd c = 0 ->
  match kexkill_pass e cs k with
  | Break _ _ _ => False
  | Again _ cs' _ => cs' !! j = Some c
  | Abort | Hang => True
  end.
Proof.
  intros Hj Hopen Hfd. unfold kexkill_pass.
  destruct (topup e 0 cs k 0) as [[[[cs1 ps] k1] n1] d] eqn:E.
  destruct (topup_open_slot e cs _ _ _ _ _ _ _ _ j c E Hj)
    as (Hj1 & p & Hp & Hpfd); [apply is_closed_false; exact Hopen|].
  assert (Hn : 0 < n1).
  { destruct (topup_n e cs _ _ _ _ _ _ _ _ E) as [[Hall _]|[_ Hlt]];
      [reflexivity | | exact Hlt].
    exfalso. apply Hopen.
    exact (proj1 (Forall_lookup _ _) Hall j c Hj1). }
  destruct (Z.eqb_spec n1 0); [lia|].
  destruct (poll_ans e); [exact I | exact Hj1 |].
  destruct (dispatch e 0 ps cs1) as [cs2|] eqn:Ed; [|exact I].
  eapply dispatch_fd_zero; try eassumption. congruence.
Qed.

(** C10.  The dispatch loop skips a slot whose poll entry carries
    descriptor 0, whatever events fired.  So a connection that is open on
    descriptor 0 is handed neither a read, nor a write, nor a close: it
    is the same after every pass, and with it in the table the loop
    never returns. *)
Theorem C10_descriptor_zero_is_skipped
    (cs : list kk_conn) (j : nat) (c : kk_conn) :
  cs !! j = Some c ->
  state c <> kk_closed ->
  fd c = 0 ->
  (forall p r ws, pfd_fd p = 0 -> dispatch_slot p c r ws = Some (c, []))
  /\ (forall e k,
        match kexkill_pass e cs k with
        | Break _ _ _ => False
        | Again _ cs' _ => cs' !! j = Some c
        | Abort | Hang => True
        end)
  /\ (forall envs k diag,
        match kexkill_loop envs cs k diag with
        | Returned _ _ _ => False
        | Pending _ cs' _ => cs' !! j = Some c
        | Fatal | Hung => True
        end).
Proof.
  intros Hj Hopen Hfd. repeat split.
  - intros p r ws Hp. unfold dispatch_slot. rewrite Hp. reflexivity.
  - intros e k. apply kexkill_pass_fd_zero; assumption.
  - intros envs. revert cs Hj.
    induction envs as [|e envs IH]; intros cs0 Hj k diag.
    + exact Hj.
    + cbn [kexkill_loop].
      pose proof (kexkill_pass_fd_zero e cs0 k j c Hj Hopen Hfd) as Hp.
      destruct (kexkill_pass e cs0 k) as [? ? ?|k1 cs1 d| |];
        [contradiction | | exact I | exact I].
      apply IH. exact Hp.
Qed.

Lemma C10_descriptor_zero_witness :
  dispatch_slot
    (mk_pollfd 0 (Z.lor (Z.lor POLLIN POLLOUT) POLLERR) (Z.lor POLLIN POLLOUT))
    (fresh 0 kk_connected)
    (ReadOk (bytes_of "SSH-2.0-x" ++ [CR; LF])) [WriteOk 4096]
  = Some (fresh 0 kk_connected, []).
Proof.
  destruct (C10_descriptor_zero_is_skipped
              (<[0%nat := fresh 0 kk_connected]> conns_init) 0
              (fresh 0 kk_connected)) as (Hskip & _ & _).
  - reflexivity.
  - discriminate.
  - reflexivity.
  - apply Hskip. reflexivity.
Defined.

Lemma kexkill_pass_k (e : pass_env) (cs : list kk_conn) (k : Z) :
  match kexkill_pass e cs k with
  | Break k1 _ d | Again k1 _ d =>
    d = opened e 0 cs
    /\ (0 <= k -> k + Z.of_nat (length d) <= INT_MAX ->
        k1 = k + Z.of_nat (length d))
  | Abort | Hang => True
  end.
Proof.
  unfold kexkill_pass.
  destruct (topup e 0 cs k 0) as [[[[cs1 ps] k1] n1] d] eqn:E.
  pose proof (topup_k e cs _ _ _ _ _ _ _ _ E) as Hk.
  destruct (n1 =? 0); [exact Hk|].
  destruct (poll_ans e); [exact I | exact Hk |].
  destruct (dispatch e 0 ps cs1); [exact Hk | exact I].
Qed.

Lemma kexkill_loop_count (envs : list pass_env) :
  forall (cs : list kk_conn) (k : Z) (diag : list Z) k' cs' d',
    kexkill_loop envs cs k diag = Returned k' cs' d' ->
    (exists ext, d' = diag ++ ext)
    /\ (k = Z.of_nat (length diag) ->
        Z.of_nat (length d') <= INT_MAX ->
        k' = Z.of_nat (length d')).
Proof.
  induction envs as [|e envs IH]; intros cs k diag k' cs' d' H.
  - discriminate.
  - cbn [kexkill_loop] in H.
    pose proof (kexkill_pass_k e cs k) as Hp.
    destruct (kexkill_pass e cs k) as [k1 cs1 d|k1 cs1 d| |];
      try discriminate.
    + injection H as <- <- <-. destruct Hp as [_ Hk].
      split; [eexists; reflexivity|].
      intros Hk0 Hmax. rewrite length_app in *. rewrite Hk; lia.
    + destruct Hp as [_ Hk].
      destruct (IH _ _ _ _ _ _ H) as [[ext Hext] Hcount].
      split; [exists (d ++ ext); rewrite Hext, app_assoc; reflexivity|].
      intros Hk0 Hmax. apply Hcount; [|exact Hmax].
      rewrite Hext in Hmax. rewrite !length_app in *. rewrite Hk; lia.
Qed.







(** ** Further facts about the embedding *)

(** The constant key-exchange-init packet is 208 bytes long and its
    length field declares the 204 bytes that follow it. *)
Lemma kexinit_layout :
  length kexinit = 208%nat
  /\ declared_len kexinit + 4 = Z.of_nat (length kexinit)
  /\ byte_at kexinit 5 = x14
  /\ length banner = 17%nat.
Proof.
  vm_compute. repeat split; reflexivity.
Qed.

Lemma scan_cr_le (l : list byte) : (scan_cr l <= length l)%nat.
Proof.
  induction l as [|b l IH]; cbn [scan_cr length]; [lia|].
  destruct (Byte.eqb b CR); lia.
Qed.

Lemma scan_cr_none (l : list byte) : CR ∉ l -> scan_cr l = length l.
Proof.
  induction l as [|b l IH]; intros Hno; [reflexivity|].
  apply not_elem_of_cons in Hno as [Hne Hno].
  cbn [scan_cr length].
  assert (E : Byte.eqb b CR = false) by (apply byte_eqb_neq; congruence).
  rewrite E, IH by exact Hno. reflexivity.
Qed.

(** [buflen] never exceeds the capacity: every call of [kk_input] keeps
    the shape of the slot. *)
Lemma kk_input_wf (c : kk_conn) (r : read_res) :
  wf c -> wf (fst (kk_input c r)).
Proof.
  intros Hwf. unfold kk_input, fail.
  destruct (buflen c =? BUFSZ)%nat; [apply wf_kk_close|].
  destruct r as [|data]; [apply wf_kk_close|].
  pose proof (wf_store_read c data Hwf) as Hwf1.
  set (c1 := store_read c data) in *. destruct Hwf1 as [Hlen Hle].
  unfold input_switch.
  destruct (state c1); try (split; assumption).
  - unfold input_connected, fail.
    destruct (Z.geb_spec (Z.of_nat (scan_cr (take (buflen c1) (buf c1))))
                         (Z.of_nat (buflen c1) - 1)) as [|Hlt];
      [split; assumption|].
    match goal with
    | |- context [if ?b then _ else _] => destruct b
    end; [apply wf_kk_close|].
    split; cbn [fst buf buflen]; [|lia].
    rewrite length_memmove_front; rewrite length_insert; [exact Hlen|].
    clearbody c1. lia.
  - unfold input_kexinit, fail.
    destruct (buflen c1 <? 4)%nat; [split; assumption|].
    destruct (size_add (packet_len (buf c1)) 4 >? Z.of_nat BUFSZ);
      [apply wf_kk_close|].
    destruct (Nat.ltb_spec (buflen c1)
                (Z.to_nat (size_add (packet_len (buf c1)) 4))) as [|Hge];
      [split; assumption|].
    destruct (Byte.eqb (byte_at (buf c1) 5) x01); [apply wf_kk_close|].
    split; cbn [fst buf buflen]; [|lia].
    rewrite length_memmove_front; [exact Hlen|]. clearbody c1. lia.
Qed.

(** A line whose terminator is not yet complete is left in the buffer:
    the call returns 0 and the connection keeps waiting. *)
Lemma input_banner_incomplete (c : kk_conn) (data line : list byte) :
  state c = kk_connected ->
  buflen c <> BUFSZ ->
  CR ∉ line ->
  content (store_read c data) = line
  \/ content (store_read c data) = line ++ [CR] ->
  wf c ->
  kk_input c (ReadOk data) = (store_read c data, 0).
Proof.
  intros Hs Hroom Hcr Hcontent Hwf.
  rewrite kk_input_ok by assumption.
  unfold input_switch. rewrite store_read_state, Hs.
  destruct (wf_store_read c data Hwf) as [Hlen Hle].
  set (c1 := store_read c data) in *.
  unfold input_connected. fold (content c1).
  assert (Hn : buflen c1 = length (content c1)).
  { unfold content. rewrite length_take. lia. }
  assert (Hscan : (buflen c1 <= S (scan_cr (content c1)))%nat).
  { rewrite Hn. destruct Hcontent as [->| ->].
    - rewrite scan_cr_none by exact Hcr. lia.
    - rewrite scan_cr_line by exact Hcr. rewrite length_app. cbn. lia. }
  destruct (Z.geb_spec (Z.of_nat (scan_cr (content c1)))
                       (Z.of_nat (buflen c1) - 1)); [reflexivity | lia].
Qed.

Lemma kk_connect_wf (c : kk_conn) (r : option Z) :
  wf c -> wf (fst (fst (kk_connect c r))).
Proof.
  intros Hwf. destruct r as [f|]; exact Hwf.
Qed.

Lemma kk_output_wf (c : kk_conn) (ws : list write_res)
    (c' : kk_conn) (r : Z) (sent : list byte) :
  wf c -> kk_output c ws = Some (c', r, sent) -> wf c'.
Proof.
  intros Hwf H. unfold kk_output in H.
  destruct (state c).
  - injection H as <- _ _. exact Hwf.
  - injection H as <- _ _. exact Hwf.
  - destruct (kk_write ws banner) as [[r' s']|]; [|discriminate].
    destruct (negb (r' =? 0)); injection H as <- _ _;
      [apply wf_kk_close | exact Hwf].
  - destruct (kk_write ws kexinit) as [[r' s']|]; [|discriminate].
    destruct (negb (r' =? 0)); injection H as <- _ _;
      [apply wf_kk_close | exact Hwf].
Qed.

(** Every slot keeps its shape through the dispatch of a pass. *)
Lemma dispatch_slot_wf (p : pollfd) (c : kk_conn) (r : read_res)
    (ws : list write_res) (c' : kk_conn) (sent : list byte) :
  wf c -> dispatch_slot p c r ws = Some (c', sent) -> wf c'.
Proof.
  intros Hwf H. unfold dispatch_slot in H.
  destruct (pfd_fd p =? 0). { injection H as <- _. exact Hwf. }
  destruct (negb (Z.land (revents p) (Z.lor POLLERR POLLHUP) =? 0)).
  { injection H as <- _. apply wf_kk_close. }
  set (c1 := if negb (Z.land (revents p) POLLIN =? 0)
             then fst (kk_input c r) else c) in H.
  assert (H1 : wf c1).
  { unfold c1. destruct (negb (Z.land (revents p) POLLIN =? 0));
      [apply kk_input_wf|]; exact Hwf. }
  destruct (negb (Z.land (revents p) POLLOUT =? 0)).
  - destruct (kk_output c1 ws) as [[[c2 r2] s2]|] eqn:E; [|discriminate].
    injection H as <- _. eapply kk_output_wf; eassumption.
  - injection H as <- _. exact H1.
Qed.

Lemma conns_init_wf : Forall wf conns_init.
Proof.
  apply Forall_replicate. split; cbn [buf buflen];
    [apply length_replicate | lia].
Qed.

(** ** Beyond the claims: [kk_write] *)

(** X1.  Whatever the successive [write] calls answer, a [kk_write] that
    returns does so with 0 or -1; with 0 the bytes that went out are the
    data, in full and in order, and with -1 they are a proper prefix of
    it. *)
Theorem X1_kk_write_all_or_prefix
    (ws : list write_res) (data : list byte) (r : Z) (sent : list byte) :
  kk_write ws data = Some (r, sent) ->
  (r = 0 /\ sent = data)
  \/ (r = -1 /\ exists rest, rest <> [] /\ data = sent ++ rest).
Proof.
  apply kk_write_sent.
Qed.

Lemma X1_kk_write_witness :
  (0 = 0 /\ [x01; x02; x03] = [x01; x02; x03])
  \/ (0 = -1 /\ exists rest, rest <> []
                 /\ [x01; x02; x03] = [x01; x02; x03] ++ rest).
Proof.
  apply (X1_kk_write_all_or_prefix
           [WriteOk 1; WriteOk 0; WriteOk 5] [x01; x02; x03]).
  reflexivity.
Defined.

(** X2.  Short writes are resumed where they stopped: when every
    [write] takes at least one byte, [kk_write] returns 0 after at most
    as many calls as there are bytes, with all of them sent. *)
Theorem X2_kk_write_progress (ws : list write_res) :
  forall data : list byte,
    Forall (fun w => exists n, w = WriteOk n /\ (1 <= n)%nat) ws ->
    (length data <= length ws)%nat ->
    kk_write ws data = Some (0, data).
Proof.
  induction ws as [|w ws IH]; intros data Hall Hlen.
  - destruct data; [reflexivity | cbn [length] in Hlen; lia].
  - destruct data as [|b data]; [reflexivity|].
    inversion Hall as [|? ? (n & -> & Hn) Hall']; subst.
    cbn [kk_write].
    set (wlen := Nat.min n (length (b :: data))).
    assert (Hw : (1 <= wlen <= length (b :: data))%nat).
    { unfold wlen. cbn [length]. lia. }
    rewrite IH; [| exact Hall' |].
    + rewrite take_drop. reflexivity.
    + rewrite length_drop. cbn [length] in *. lia.
Qed.

Lemma X2_kk_write_progress_witness :
  kk_write [WriteOk 1; WriteOk 1; WriteOk 7] [x01; x02; x03]
  = Some (0, [x01; x02; x03]).
Proof.
  apply X2_kk_write_progress.
  - repeat constructor; eexists; (split; [reflexivity | lia]).
  - cbn [length]. lia.
Defined.

(** ** Beyond the claims: [kk_input] *)

(** X3.  [kk_input] keeps the receive buffer within its bounds: after
    any call, whatever [read] answered, the array still has its 2048
    cells and [buflen] is at most 2048. *)
Theorem X3_kk_input_keeps_bounds (c : kk_conn) (r : read_res) :
  wf c ->
  length (buf (fst (kk_input c r))) = BUFSZ
  /\ (buflen (fst (kk_input c r)) <= BUFSZ)%nat.
Proof.
  intros Hwf. exact (kk_input_wf c r Hwf).
Qed.

Lemma X3_kk_input_bounds_witness :
  length (buf (fst (kk_input (fresh 3 kk_kexinit)
                             (ReadOk (replicate 5000 xff))))) = BUFSZ
  /\ (buflen (fst (kk_input (fresh 3 kk_kexinit)
                            (ReadOk (replicate 5000 xff)))) <= BUFSZ)%nat.
Proof.
  apply X3_kk_input_keeps_bounds. apply wf_fresh.
Defined.

(** X4.  [kk_input] returns 0 or -1.  It returns -1 only together with
    closing the slot (descriptor -1, stage [kk_closed], buffer zeroed and
    empty), and a connection that is still open after the call is on the
    descriptor it had. *)
Theorem X4_kk_input_return_value (c : kk_conn) (r : read_res) :
  (snd (kk_input c r) = 0 \/ snd (kk_input c r) = -1)
  /\ (snd (kk_input c r) = -1 -> fst (kk_input c r) = kk_close c)
  /\ (state (fst (kk_input c r)) <> kk_closed ->
      fd (fst (kk_input c r)) = fd c).
Proof.
  assert (Hclose : forall z : Z,
             (z = 0 \/ z = -1) -> (z = -1 -> z = -1) ->
             (snd (kk_close c, z) = 0 \/ snd (kk_close c, z) = -1)
             /\ (snd (kk_close c, z) = -1
                 -> fst (kk_close c, z) = kk_close c)
             /\ (state (fst (kk_close c, z)) <> kk_closed
                 -> fd (fst (kk_close c, z)) = fd c)).
  { intros z Hz _. cbn [fst snd kk_close state].
    split; [exact Hz|]. split; [reflexivity|].
    intros H. contradiction H. reflexivity. }
  assert (Hkeep : forall c' : kk_conn,
             fd c' = fd c ->
             (snd (c', 0) = 0 \/ snd (c', 0) = -1)
             /\ (snd (c', 0) = -1 -> fst (c', 0) = kk_close c)
             /\ (state (fst (c', 0)) <> kk_closed
                 -> fd (fst (c', 0)) = fd c)).
  { intros c' Hfd. cbn [fst snd].
    split; [left; reflexivity|]. split; [discriminate|].
    intros _. exact Hfd. }
  unfold kk_input, fail.
  destruct (buflen c =? BUFSZ)%nat; [apply Hclose; auto|].
  destruct r as [|data]; [apply Hclose; auto|].
  unfold input_switch. rewrite store_read_state.
  destruct (state c) eqn:Hs; try (apply Hkeep; reflexivity).
  - unfold input_connected, fail.
    repeat match goal with
           | |- context [if ?b then _ else _] => destruct b
           end;
      first [apply Hkeep; reflexivity | apply Hclose; auto].
  - unfold input_kexinit, fail.
    repeat match goal with
           | |- context [if ?b then _ else _] => destruct b
           end;
      first [apply Hkeep; reflexivity | apply Hclose; auto].
Qed.

(** X5.  The stages [kk_input] can move a connection through: it stays
    in its stage, or is closed, or goes from [kk_connected] to
    [kk_banner]; no other transition happens on input, so only
    [kk_output] leads into [kk_kexinit]. *)
Theorem X5_kk_input_stage_transitions (c : kk_conn) (r : read_res) :
  state (fst (kk_input c r)) = state c
  \/ state (fst (kk_input c r)) = kk_closed
  \/ (state c = kk_connected /\ state (fst (kk_input c r)) = kk_banner).
Proof.
  unfold kk_input, fail.
  destruct (buflen c =? BUFSZ)%nat; [right; left; reflexivity|].
  destruct r as [|data]; [right; left; reflexivity|].
  unfold input_switch. rewrite store_read_state.
  destruct (state c) eqn:Hs; try (left; cbn [fst]; rewrite store_read_state;
                                   exact Hs).
  - unfold input_connected, fail.
    repeat match goal with
           | |- context [if ?b then _ else _] => destruct b
           end; cbn [fst state kk_close]; rewrite ?store_read_state; auto.
  - unfold input_kexinit, fail.
    repeat match goal with
           | |- context [if ?b then _ else _] => destruct b
           end; cbn [fst state kk_close]; rewrite ?store_read_state; auto.
Qed.

(** X6.  In the [kk_connected] stage a line whose terminator has not
    fully arrived (no carriage return yet, or the carriage return is the
    last byte buffered) is neither accepted nor rejected, however long
    it is and whatever it starts with: the call returns 0 and the
    connection stays in [kk_connected] with the bytes in its buffer. *)
Theorem X6_incomplete_banner_waits (c : kk_conn) (data line : list byte) :
  wf c ->
  state c = kk_connected ->
  buflen c <> BUFSZ ->
  CR ∉ line ->
  content (store_read c data) = line
  \/ content (store_read c data) = line ++ [CR] ->
  kk_input c (ReadOk data) = (store_read c data, 0)
  /\ state (store_read c data) = kk_connected.
Proof.
  intros Hwf Hs Hroom Hcr Hcontent. split.
  - apply (input_banner_incomplete c data line); assumption.
  - rewrite store_read_state. exact Hs.
Qed.

Lemma X6_incomplete_banner_witness :
  kk_input (fresh 3 kk_connected) (ReadOk (bytes_of "HTTP/1.1 200" ++ [CR]))
  = (store_read (fresh 3 kk_connected) (bytes_of "HTTP/1.1 200" ++ [CR]), 0)
  /\ state (store_read (fresh 3 kk_connected)
                       (bytes_of "HTTP/1.1 200" ++ [CR])) = kk_connected.
Proof.
  apply (X6_incomplete_banner_waits (fresh 3 kk_connected)
           (bytes_of "HTTP/1.1 200" ++ [CR]) (bytes_of "HTTP/1.1 200")).
  - apply wf_fresh.
  - reflexivity.
  - vm_compute. discriminate.
  - change (bytes_of "HTTP/1.1 200")
      with [x48; x54; x54; x50; x2f; x31; x2e; x31; x20; x32; x30; x30].
    rewrite !not_elem_of_cons.
    repeat split; try discriminate. apply not_elem_of_nil.
  - right. vm_compute. reflexivity.
Defined.

(** X7.  In the [kk_kexinit] stage a frame that has not fully arrived
    is left alone: with fewer than four bytes buffered, or with a
    declared length that fits the capacity but more bytes than are
    buffered, the call returns 0 and changes nothing but what [read]
    stored. *)
Theorem X7_incomplete_frame_waits (c : kk_conn) (data : list byte) :
  state c = kk_kexinit ->
  buflen c <> BUFSZ ->
  (buflen (store_read c data) < 4)%nat
  \/ (declared_len (buf (store_read c data)) + 4 <= Z.of_nat BUFSZ
      /\ Z.of_nat (buflen (store_read c data))
         < declared_len (buf (store_read c data)) + 4) ->
  kk_input c (ReadOk data) = (store_read c data, 0).
Proof.
  intros Hs Hroom Hwait.
  rewrite kk_input_ok by assumption.
  unfold input_switch. rewrite store_read_state, Hs.
  set (c1 := store_read c data) in *. clearbody c1.
  unfold input_kexinit.
  destruct (Nat.ltb_spec (buflen c1) 4) as [|H4]; [reflexivity|].
  destruct Hwait as [Hlt|[Hcap Hshort]]; [lia|].
  pose proof (declared_len_nonneg (buf c1)) as H0.
  assert (HB : Z.of_nat BUFSZ = 2048) by reflexivity.
  rewrite packet_len_small by lia.
  assert (Hadd : size_add (declared_len (buf c1)) 4
                 = declared_len (buf c1) + 4).
  { unfold size_add. apply Z.mod_small. lia. }
  rewrite Hadd.
  destruct (Z.gtb_spec (declared_len (buf c1) + 4) (Z.of_nat BUFSZ));
    [lia|].
  destruct (Nat.ltb_spec (buflen c1) (Z.to_nat (declared_len (buf c1) + 4)));
    [reflexivity | lia].
Qed.

Lemma X7_incomplete_frame_witness :
  kk_input (fresh 3 kk_kexinit) (ReadOk [x00; x00; x00; x0c; x0a; x14])
  = (store_read (fresh 3 kk_kexinit) [x00; x00; x00; x0c; x0a; x14], 0).
Proof.
  apply X7_incomplete_frame_waits.
  - reflexivity.
  - vm_compute. discriminate.
  - right. split.
    + apply Z.leb_le. vm_compute. reflexivity.
    + apply Z.ltb_lt. vm_compute. reflexivity.
Defined.

(** X8.  In the [kk_kexinit] stage, as soon as four bytes are buffered,
    a declared length [L] with [L + 4] beyond the 2048 bytes of the
    buffer and [L] below [2^32 - 4] closes the connection with return
    value -1, however few bytes of the packet are there. *)
Theorem X8_oversize_packet_closes (c : kk_conn) (data : list byte) :
  state c = kk_kexinit ->
  buflen c <> BUFSZ ->
  (4 <= buflen (store_read c data))%nat ->
  Z.of_nat BUFSZ < declared_len (buf (store_read c data)) + 4 ->
  declared_len (buf (store_read c data)) < 2 ^ 32 - 4 ->
  kk_input c (ReadOk data) = (kk_close c, -1).
Proof.
  apply kk_input_oversize.
Qed.

Lemma X8_oversize_packet_witness :
  kk_input (fresh 3 kk_kexinit) (ReadOk [x00; x00; x07; xfd])
  = (kk_close (fresh 3 kk_kexinit), -1).
Proof.
  apply X8_oversize_packet_closes.
  - reflexivity.
  - vm_compute. discriminate.
  - apply Nat.leb_le. vm_compute. reflexivity.
  - apply Z.ltb_lt. vm_compute. reflexivity.
  - apply Z.ltb_lt. vm_compute. reflexivity.
Defined.

(** ** Beyond the claims: [kk_output] *)

(** X9.  [kk_output] returns 0 or -1.  With 0 it has sent nothing, the
    whole banner or the whole key-exchange-init packet, and the
    descriptor and the receive buffer are what they were; with -1 the
    slot is closed and what went out is a proper prefix of the banner or
    of the packet. *)
Theorem X9_kk_output_result
    (c : kk_conn) (ws : list write_res)
    (c' : kk_conn) (r : Z) (sent : list byte) :
  kk_output c ws = Some (c', r, sent) ->
  (r = 0 /\ fd c' = fd c /\ buflen c' = buflen c /\ buf c' = buf c
   /\ (sent = [] \/ sent = banner \/ sent = kexinit))
  \/ (r = -1 /\ c' = kk_close c
      /\ exists rest, rest <> []
                      /\ (banner = sent ++ rest \/ kexinit = sent ++ rest)).
Proof.
  intros H. unfold kk_output in H.
  destruct (state c) eqn:Hs.
  - injection H as <- <- <-. left. auto 10.
  - injection H as <- <- <-. left. auto 10.
  - destruct (kk_write ws banner) as [[r' s']|] eqn:Hw; [|discriminate].
    destruct (kk_write_sent _ _ _ _ Hw) as [[-> ->]|[-> (rest & Hne & Hd)]];
      cbn [Z.eqb negb] in H; injection H as <- <- <-.
    + left. cbn [fd buflen buf]. auto 10.
    + right. split; [reflexivity|]. split; [reflexivity|].
      exists rest. auto.
  - destruct (kk_write ws kexinit) as [[r' s']|] eqn:Hw; [|discriminate].
    destruct (kk_write_sent _ _ _ _ Hw) as [[-> ->]|[-> (rest & Hne & Hd)]];
      cbn [Z.eqb negb] in H; injection H as <- <- <-.
    + left. auto 10.
    + right. split; [reflexivity|]. split; [reflexivity|].
      exists rest. auto.
Qed.

Lemma X9_kk_output_witness :
  (-1 = 0 /\ fd (kk_close (fresh 3 kk_banner)) = fd (fresh 3 kk_banner)
   /\ buflen (kk_close (fresh 3 kk_banner)) = buflen (fresh 3 kk_banner)
   /\ buf (kk_close (fresh 3 kk_banner)) = buf (fresh 3 kk_banner)
   /\ (bytes_of "SSH-" = [] \/ bytes_of "SSH-" = banner
       \/ bytes_of "SSH-" = kexinit))
  \/ (-1 = -1 /\ kk_close (fresh 3 kk_banner) = kk_close (fresh 3 kk_banner)
      /\ exists rest, rest <> []
                      /\ (banner = bytes_of "SSH-" ++ rest
                          \/ kexinit = bytes_of "SSH-" ++ rest)).
Proof.
  apply (X9_kk_output_result (fresh 3 kk_banner) [WriteOk 4; WriteErr]).
  vm_compute. reflexivity.
Defined.

(** ** Beyond the claims: the passes of [kexkill] *)

Lemma topup_slot (e : pass_env) (cs : list kk_conn) :
  forall (i : nat) (k n : Z) cs1 ps k1 n1 d (j : nat) (c : kk_conn),
    topup e i cs k n = (cs1, ps, k1, n1, d) ->
    cs !! j = Some c ->
    let c1 := if is_closed c
              then fst (fst (kk_connect c (connect_ans e (i + j)%nat)))
              else c in
    cs1 !! j = Some c1
    /\ ps !! j = Some (if is_closed c1
                       then mk_pollfd (fd c1) POLLNVAL 0
                       else mk_pollfd (fd c1)
                              (Z.lor (Z.lor POLLIN POLLOUT) POLLERR) 0).
Proof.
  induction cs as [|c0 cs IH]; intros i k n cs1 ps k1 n1 d j c H Hj.
  - discriminate.
  - cbn [topup] in H.
    destruct (if is_closed c0
              then let '(c1, r, d0) := kk_connect c0 (connect_ans e i) in
                   (c1, if r =? 0 then int_of (k + 1) else k, d0)
              else (c0, k, [])) as [[c1' k1'] d1] eqn:Ec.
    destruct (topup e (S i) cs k1'
                (if is_closed c1' then n else Z.of_nat i + 1))
      as [[[[cs2 ps2] k2] n2] d2] eqn:E.
    injection H as <- <- _ _ _.
    destruct j as [|j].
    + injection Hj as ->. rewrite Nat.add_0_r.
      assert (Hc1 : c1' = if is_closed c
                          then fst (fst (kk_connect c (connect_ans e i)))
                          else c).
      { destruct (is_closed c).
        - destruct (kk_connect c (connect_ans e i)) as [[c2 r2] d0].
          injection Ec as <- _ _. reflexivity.
        - injection Ec as <- _ _. reflexivity. }
      cbv zeta. rewrite <- Hc1. cbn [lookup list_lookup].
      split; reflexivity.
    + cbn [lookup list_lookup] in *.
      replace (i + S j)%nat with (S i + j)%nat by lia.
      eapply IH; eassumption.
Qed.

Lemma dispatch_lookup (e : pass_env) (ps : list pollfd) :
  forall (i : nat) (cs cs' : list kk_conn) (j : nat) (c : kk_conn) (p : pollfd),
    dispatch e i ps cs = Some cs' ->
    cs !! j = Some c ->
    ps !! j = Some p ->
    exists c' out,
      dispatch_slot (mk_pollfd (pfd_fd p) (events p)
                               (revents_ans e (i + j)%nat))
                    c (read_ans e (i + j)%nat) (write_ans e (i + j)%nat)
      = Some (c', out)
      /\ cs' !! j = Some c'.
Proof.
  induction ps as [|p0 ps IH]; intros i cs cs' j c p H Hc Hp.
  - discriminate.
  - destruct cs as [|c0 cs]; [discriminate|].
    cbn [dispatch] in H.
    destruct (dispatch_slot _ c0 (read_ans e i) (write_ans e i))
      as [[c1 out]|] eqn:Es; [|discriminate].
    destruct (dispatch e (S i) ps cs) as [cs1|] eqn:Ed; [|discriminate].
    injection H as <-.
    destruct j as [|j].
    + injection Hc as ->. injection Hp as ->. rewrite Nat.add_0_r.
      exists c1, out. split; [exact Es | reflexivity].
    + cbn [lookup list_lookup] in *.
      replace (i + S j)%nat with (S i + j)%nat by lia.
      eapply IH; eassumption.
Qed.

(** X10.  The top-up step treats every slot on its own.  An open slot
    is left as it is.  A closed slot gets one connection attempt: when
    [socket] and [connect] succeed it is in [kk_connected] on the new
    descriptor, with the buffer it had, and when they fail it stays as
    it was, to be tried again in the next pass. *)
Theorem X10_topup_per_slot
    (e : pass_env) (cs : list kk_conn) (k : Z) (j : nat) (c : kk_conn) :
  cs !! j = Some c ->
  (state c <> kk_closed -> topup_conns e cs k !! j = Some c)
  /\ (state c = kk_closed ->
      forall f, connect_ans e j = Some f ->
        topup_conns e cs k !! j
        = Some (mk_conn f kk_connected (buflen c) (buf c)))
  /\ (state c = kk_closed -> connect_ans e j = None ->
      topup_conns e cs k !! j = Some c).
Proof.
  intros Hj. unfold topup_conns.
  destruct (topup e 0 cs k 0) as [[[[cs1 ps] k1] n1] d] eqn:E.
  cbn [fst].
  destruct (topup_slot e cs _ _ _ _ _ _ _ _ j c E Hj) as [H1 _].
  cbn [Nat.add] in H1.
  repeat split.
  - intros Hopen. apply is_closed_false in Hopen.
    rewrite Hopen in H1. exact H1.
  - intros Hcl f Hf. apply is_closed_true in Hcl.
    rewrite Hcl, Hf in H1. exact H1.
  - intros Hcl Hf. apply is_closed_true in Hcl.
    rewrite Hcl, Hf in H1. exact H1.
Qed.

Lemma X10_topup_witness :
  topup_conns (mk_env (fun _ => Some 7) PollRetry (fun _ => 0)
                      (fun _ => ReadErr) (fun _ => []))
              conns_init 0 !! 5%nat
  = Some (fresh 7 kk_connected).
Proof.
  destruct (X10_topup_per_slot
              (mk_env (fun _ => Some 7) PollRetry (fun _ => 0)
                      (fun _ => ReadErr) (fun _ => []))
              conns_init 0 5 (mk_conn (-1) kk_closed 0 (replicate BUFSZ x00)))
    as (_ & Hopen & _).
  - reflexivity.
  - apply (Hopen eq_refl 7). reflexivity.
Defined.

(** X11.  Slots do not interfere in a pass.  When [poll] reports events,
    what becomes of an open slot is what the dispatch of that slot
    alone gives, from its own connection, its own events and the
    answers to its own [read] and [write] calls; when [poll] is
    interrupted or reports nothing, an open slot is left as it is. *)
Theorem X11_pass_per_slot
    (e : pass_env) (cs : list kk_conn) (k : Z) (j : nat) (c : kk_conn)
    (k' : Z) (cs' : list kk_conn) (d : list Z) :
  cs !! j = Some c ->
  state c <> kk_closed ->
  kexkill_pass e cs k = Again k' cs' d ->
  (poll_ans e = PollRetry -> cs' !! j = Some c)
  /\ (poll_ans e = PollReady ->
      exists c' out,
        dispatch_slot
          (mk_pollfd (fd c) (Z.lor (Z.lor POLLIN POLLOUT) POLLERR)
                     (revents_ans e j))
          c (read_ans e j) (write_ans e j) = Some (c', out)
        /\ cs' !! j = Some c').
Proof.
  intros Hj Hopen H. unfold kexkill_pass in H.
  destruct (topup e 0 cs k 0) as [[[[cs1 ps] k1] n1] d1] eqn:E.
  destruct (topup_slot e cs _ _ _ _ _ _ _ _ j c E Hj) as [H1 Hp].
  apply is_closed_false in Hopen. rewrite Hopen in H1, Hp.
  rewrite Hopen in Hp. cbn [Nat.add] in *.
  destruct (n1 =? 0); [discriminate|].
  split; intros Hpoll; rewrite Hpoll in H.
  - injection H as _ <- _. exact H1.
  - destruct (dispatch e 0 ps cs1) as [cs2|] eqn:Ed; [|discriminate].
    injection H as _ <- _.
    destruct (dispatch_lookup e ps 0 cs1 cs2 j c _ Ed H1 Hp)
      as (c' & out & Hs & Hc').
    exists c', out. split; [exact Hs | exact Hc'].
Qed.

Lemma X11_pass_witness :
  (<[0%nat := fresh 3 kk_connected]> conns_init) !! 0%nat
  = Some (fresh 3 kk_connected).
Proof.
  destruct (X11_pass_per_slot
              (mk_env (fun _ => None) PollRetry (fun _ => 0)
                      (fun _ => ReadErr) (fun _ => []))
              (<[0%nat := fresh 3 kk_connected]> conns_init) 0 0
              (fresh 3 kk_connected)
              0 (<[0%nat := fresh 3 kk_connected]> conns_init) [])
    as [Hretry _].
  - reflexivity.
  - discriminate.
  - vm_compute. reflexivity.
  - apply Hretry. reflexivity.
Defined.

Lemma topup_shape (e : pass_env) (cs : list kk_conn) :
  forall (i : nat) (k n : Z) cs1 ps k1 n1 d,
    topup e i cs k n = (cs1, ps, k1, n1, d) ->
    length cs1 = length cs
    /\ length ps = length cs
    /\ (Forall wf cs -> Forall wf cs1).
Proof.
  induction cs as [|c0 cs IH]; intros i k n cs1 ps k1 n1 d H.
  - injection H as <- <- _ _ _. auto.
  - cbn [topup] in H.
    destruct (if is_closed c0
              then let '(c1, r, d0) := kk_connect c0 (connect_ans e i) in
                   (c1, if r =? 0 then int_of (k + 1) else k, d0)
              else (c0, k, [])) as [[c1 k1'] d1] eqn:Ec.
    destruct (topup e (S i) cs k1'
                (if is_closed c1 then n else Z.of_nat i + 1))
      as [[[[cs2 ps2] k2] n2] d2] eqn:E.
    injection H as <- <- _ _ _.
    destruct (IH _ _ _ _ _ _ _ _ E) as (Hl1 & Hl2 & Hwf).
    cbn [length]. repeat split; [congruence | congruence |].
    intros Hall. inversion Hall as [|? ? Hc0 Hcs]; subst.
    constructor; [|apply Hwf; exact Hcs].
    destruct (is_closed c0).
    + pose proof (kk_connect_wf c0 (connect_ans e i) Hc0) as Hk.
      destruct (kk_connect c0 (connect_ans e i)) as [[c2 r2] d0].
      injection Ec as <- _ _. exact Hk.
    + injection Ec as <- _ _. exact Hc0.
Qed.

Lemma dispatch_shape (e : pass_env) (ps : list pollfd) :
  forall (i : nat) (cs cs' : list kk_conn),
    dispatch e i ps cs = Some cs' ->
    length ps = length cs ->
    length cs' = length cs /\ (Forall wf cs -> Forall wf cs').
Proof.
  induction ps as [|p0 ps IH]; intros i cs cs' H Hlen.
  - destruct cs; [|discriminate]. injection H as <-. auto.
  - destruct cs as [|c0 cs]; [discriminate|].
    cbn [dispatch] in H.
    destruct (dispatch_slot _ c0 (read_ans e i) (write_ans e i))
      as [[c1 out]|] eqn:Es; [|discriminate].
    destruct (dispatch e (S i) ps cs) as [cs1|] eqn:Ed; [|discriminate].
    injection H as <-. injection Hlen as Hlen.
    destruct (IH _ _ _ Ed Hlen) as [Hl Hwf].
    cbn [length]. split; [congruence|].
    intros Hall. inversion Hall as [|? ? Hc0 Hcs]; subst.
    constructor; [|apply Hwf; exact Hcs].
    eapply dispatch_slot_wf; eassumption.
Qed.

Lemma kexkill_pass_shape (e : pass_env) (cs : list kk_conn) (k : Z) :
  match kexkill_pass e cs k with
  | Break _ cs' _ =>
    length cs' = length cs /\ (Forall wf cs -> Forall wf cs')
    /\ Forall (fun c => state c = kk_closed) cs'
  | Again _ cs' _ =>
    length cs' = length cs /\ (Forall wf cs -> Forall wf cs')
  | Abort | Hang => True
  end.
Proof.
  unfold kexkill_pass.
  destruct (topup e 0 cs k 0) as [[[[cs1 ps] k1] n1] d] eqn:E.
  destruct (topup_shape e cs _ _ _ _ _ _ _ _ E) as (Hl1 & Hl2 & Hwf).
  destruct (Z.eqb_spec n1 0) as [Hz|Hnz].
  - repeat split; [exact Hl1 | exact Hwf |].
    destruct (topup_n e cs _ _ _ _ _ _ _ _ E) as [[Hall _]|[_ Hlt]];
      [reflexivity | exact Hall | lia].
  - destruct (poll_ans e); [exact I | auto |].
    destruct (dispatch e 0 ps cs1) as [cs2|] eqn:Ed; [|exact I].
    destruct (dispatch_shape e ps 0 cs1 cs2 Ed) as [Hl Hwf2]; [congruence|].
    split; [congruence | auto].
Qed.

(** X12.  The table of slots keeps its size and every slot its bounds
    through a whole run of the loop, however many passes it takes and
    whatever the kernel answers; and when [kexkill] returns, every slot
    of the table is closed. *)
Theorem X12_run_keeps_table (envs : list pass_env) :
  forall (cs : list kk_conn) (k : Z) (diag : list Z),
    match kexkill_loop envs cs k diag with
    | Returned _ cs' _ =>
      length cs' = length cs /\ (Forall wf cs -> Forall wf cs')
      /\ Forall (fun c => state c = kk_closed) cs'
    | Pending _ cs' _ =>
      length cs' = length cs /\ (Forall wf cs -> Forall wf cs')
    | Fatal | Hung => True
    end.
Proof.
  induction envs as [|e envs IH]; intros cs k diag.
  - cbn [kexkill_loop]. auto.
  - cbn [kexkill_loop].
    pose proof (kexkill_pass_shape e cs k) as Hp.
    destruct (kexkill_pass e cs k) as [k1 cs1 d|k1 cs1 d| |];
      [exact Hp | | exact I | exact I].
    destruct Hp as [Hl Hwf].
    specialize (IH cs1 k1 (diag ++ d)).
    destruct (kexkill_loop envs cs1 k1 (diag ++ d)) as [? cs2 ?| | |? cs2 ?];
      try exact I.
    + destruct IH as (Hl2 & Hwf2 & Hcl).
      repeat split; [congruence | auto | exact Hcl].
    + destruct IH as (Hl2 & Hwf2). split; [congruence | auto].
Qed.

Lemma kexkill_loop_fatal (envs : list pass_env) :
  forall (cs : list kk_conn) (k : Z) (diag : list Z),
    kexkill_loop envs cs k diag = Fatal ->
    exists e, e ∈ envs /\ poll_ans e = PollFail.
Proof.
  induction envs as [|e envs IH]; intros cs k diag H.
  - discriminate.
  - cbn [kexkill_loop] in H.
    destruct (kexkill_pass e cs k) as [k1 cs1 d|k1 cs1 d| |] eqn:Ep;
      try discriminate.
    + destruct (IH _ _ _ H) as (e' & Hin & Hf).
      exists e'. split; [apply list_elem_of_further; exact Hin | exact Hf].
    + exists e. split; [apply list_elem_of_here|].
      unfold kexkill_pass in Ep.
      destruct (topup e 0 cs k 0) as [[[[cs1 ps] k1] n1] d].
      destruct (n1 =? 0); [discriminate|].
      destruct (poll_ans e); [reflexivity | discriminate |].
      destruct (dispatch e 0 ps cs1); discriminate.
Qed.

(** ** Beyond the claims: [main] *)

(** X13.  The loop over the resolved addresses ends the process with
    status 0 or 1, and with 1 only when a [poll] of one of the runs
    failed with an error other than an interruption: no failure of a
    connection, and no address that refuses every connection, makes the
    exit status 1. *)
Theorem X13_main_exit_status (res : list (list pass_env)) :
  forall (cs : list kk_conn) (s : Z),
    main_addresses res cs = Some s ->
    s = 0
    \/ (s = 1 /\ exists envs e,
                   envs ∈ res /\ e ∈ envs /\ poll_ans e = PollFail).
Proof.
  induction res as [|envs res IH]; intros cs s H.
  - injection H as <-. left. reflexivity.
  - cbn [main_addresses] in H.
    destruct (kexkill envs cs) as [k cs1 d| | |k cs1 d] eqn:Ek;
      try discriminate.
    + destruct (k >? 0).
      * injection H as <-. left. reflexivity.
      * destruct (IH _ _ H) as [->|[-> (envs' & e & Hin & He & Hf)]];
          [left; reflexivity|].
        right. split; [reflexivity|].
        exists envs', e. split; [apply list_elem_of_further; exact Hin|].
        split; assumption.
    + injection H as <-. right. split; [reflexivity|].
      destruct (kexkill_loop_fatal envs cs 0 [] Ek) as (e & He & Hf).
      exists envs, e. split; [apply list_elem_of_here|]. split; assumption.
Qed.

Lemma X13_main_exit_witness :
  1 = 0
  \/ (1 = 1 /\ exists envs e,
        envs ∈ [[mk_env (fun _ => Some 4) PollFail (fun _ => 0)
                        (fun _ => ReadErr) (fun _ => [])]]
        /\ e ∈ envs /\ poll_ans e = PollFail).
Proof.
  apply (X13_main_exit_status
           [[mk_env (fun _ => Some 4) PollFail (fun _ => 0)
                    (fun _ => ReadErr) (fun _ => [])]]
           conns_init).
  vm_compute. reflexivity.
Defined.

Lemma strchr_spec (s : list byte) (ch : byte) :
  match strchr s ch with
  | Some i => (ch ∉ take i s) /\ s = take i s ++ ch :: drop (S i) s
  | None => ch ∉ s
  end.
Proof.
  induction s as [|b s IH]; cbn [strchr].
  - apply not_elem_of_nil.
  - destruct (Byte.eqb b ch) eqn:E.
    + apply byte_eqb_eq in E. subst b. cbn [take drop app].
      split; [apply not_elem_of_nil | reflexivity].
    + apply byte_eqb_neq in E.
      destruct (strchr s ch) as [i|].
      * destruct IH as [Hno Heq]. cbn [take drop app]. split.
        -- apply not_elem_of_cons. split; [congruence | exact Hno].
        -- f_equal. exact Heq.
      * apply not_elem_of_cons. split; [congruence | exact IH].
Qed.

(** X14.  How [main] takes host and service from its argument.  The
    host never contains a colon.  When the argument has a colon it is
    the host, a colon and the service, the cut being at the first colon
    (so the service may contain further colons and the host may be
    empty); when it has none, the host is the whole argument and the
    service is [ssh]. *)
Theorem X14_host_service_split (arg : list byte) :
  (COLON ∉ fst (host_service arg))
  /\ (COLON ∈ arg ->
      arg = fst (host_service arg) ++ COLON :: snd (host_service arg))
  /\ (COLON ∉ arg ->
      host_service arg = (arg, bytes_of "ssh")).
Proof.
  unfold host_service. pose proof (strchr_spec arg COLON) as H.
  destruct (strchr arg COLON) as [i|]; cbn [fst snd].
  - destruct H as [Hno Heq]. repeat split.
    + exact Hno.
    + intros _. exact Heq.
    + intros Hnot. exfalso. apply Hnot. rewrite Heq.
      apply elem_of_app. right. apply list_elem_of_here.
  - repeat split.
    + exact H.
    + intros Hin. contradiction.
Qed.

Lemma X14_host_service_witness :
  host_service (bytes_of "example.org:2222")
  = (bytes_of "example.org", bytes_of "2222")
  /\ host_service (bytes_of "::1") = ([], bytes_of ":1")
  /\ host_service (bytes_of "example.org")
     = (bytes_of "example.org", bytes_of "ssh").
Proof.
  destruct (X14_host_service_split (bytes_of "example.org")) as (_ & _ & H).
  split; [vm_compute; reflexivity|].
  split; [vm_compute; reflexivity|].
  apply H. unfold COLON.
  change (bytes_of "example.org")
    with [x65; x78; x61; x6d; x70; x6c; x65; x2e; x6f; x72; x67].
  rewrite !not_elem_of_cons.
  repeat split; try discriminate. apply not_elem_of_nil.
Defined.

(** ** Beyond the claims: the order of what a connection sends *)

Lemma within_script_stay (s : kk_state) : within_script s s [].
Proof.
  intros n tail rest H. exists n, rest. exact H.
Qed.

Lemma within_script_close (s : kk_state) : within_script s kk_closed [].
Proof.
  intros n tail rest H. cbn [script] in H.
  symmetry in H. apply app_eq_nil in H as [-> ->].
  exists O, (script s 0). reflexivity.
Qed.

Lemma within_script_trans (s1 s2 s3 : kk_state) (out : list byte) :
  within_script s1 s2 [] -> within_script s2 s3 out ->
  within_script s1 s3 out.
Proof.
  intros H12 H23 n tail rest H.
  destruct (H23 n tail rest H) as (n2 & rest2 & H2).
  rewrite app_assoc in H2.
  destruct (H12 n2 _ rest2 H2) as (n1 & rest1 & H1).
  exists n1, rest1. rewrite H1. cbn [app]. rewrite <- app_assoc. reflexivity.
Qed.

Lemma within_script_prefix (s : kk_state) (sent rest : list byte) :
  script s 1 = sent ++ rest -> within_script s kk_closed sent.
Proof.
  intros Hs n tail rest' H. cbn [script] in H.
  symmetry in H. apply app_eq_nil in H as [-> ->].
  exists 1%nat, rest. exact Hs.
Qed.

Lemma kk_input_stages (c : kk_conn) (r : read_res) :
  state (fst (kk_input c r)) = state c
  \/ state (fst (kk_input c r)) = kk_closed
  \/ (state c = kk_connected /\ state (fst (kk_input c r)) = kk_banner).
Proof.
  unfold kk_input, fail.
  destruct (buflen c =? BUFSZ)%nat; [right; left; reflexivity|].
  destruct r as [|data]; [right; left; reflexivity|].
  unfold input_switch. rewrite store_read_state.
  destruct (state c) eqn:Hs; try (left; cbn [fst]; rewrite store_read_state;
                                   exact Hs).
  - unfold input_connected, fail.
    repeat match goal with
           | |- context [if ?b then _ else _] => destruct b
           end; cbn [fst state kk_close]; rewrite ?store_read_state; auto.
  - unfold input_kexinit, fail.
    repeat match goal with
           | |- context [if ?b then _ else _] => destruct b
           end; cbn [fst state kk_close]; rewrite ?store_read_state; auto.
Qed.

Lemma kk_input_within_script (c : kk_conn) (r : read_res) :
  within_script (state c) (state (fst (kk_input c r))) [].
Proof.
  destruct (kk_input_stages c r) as [->|[->|[Hc ->]]].
  - apply within_script_stay.
  - apply within_script_close.
  - rewrite Hc. intros n tail rest H. exists n, rest. exact H.
Qed.

Lemma kk_output_within_script (c : kk_conn) (ws : list write_res)
    (c' : kk_conn) (r : Z) (sent : list byte) :
  kk_output c ws = Some (c', r, sent) ->
  within_script (state c) (state c') sent.
Proof.
  intros H. unfold kk_output in H.
  destruct (state c) eqn:Hs.
  - injection H as <- _ <-. rewrite Hs. apply within_script_stay.
  - injection H as <- _ <-. rewrite Hs. apply within_script_stay.
  - destruct (kk_write ws banner) as [[r' s']|] eqn:Hw; [|discriminate].
    destruct (kk_write_sent _ _ _ _ Hw) as [[-> ->]|[-> (rest & Hne & Hd)]];
      cbn [Z.eqb negb] in H; injection H as <- _ <-; cbn [state kk_close].
    + intros n tail rest H. cbn [script] in *.
      exists n, rest. rewrite H. reflexivity.
    + apply (within_script_prefix kk_banner s' (rest ++ kexinit)).
      cbn [script replicate concat]. rewrite app_nil_r, Hd, <- app_assoc.
      reflexivity.
  - destruct (kk_write ws kexinit) as [[r' s']|] eqn:Hw; [|discriminate].
    destruct (kk_write_sent _ _ _ _ Hw) as [[-> ->]|[-> (rest & Hne & Hd)]];
      cbn [Z.eqb negb] in H; injection H as <- _ <-; cbn [state kk_close].
    + rewrite Hs. intros n tail rest H. cbn [script] in *.
      exists (S n), rest. cbn [replicate concat].
      rewrite H. reflexivity.
    + apply (within_script_prefix kk_kexinit s' rest).
      cbn [script replicate concat]. rewrite app_nil_r. exact Hd.
Qed.

Lemma dispatch_slot_within_script (p : pollfd) (c : kk_conn) (r : read_res)
    (ws : list write_res) (c' : kk_conn) (sent : list byte) :
  dispatch_slot p c r ws = Some (c', sent) ->
  within_script (state c) (state c') sent.
Proof.
  intros H. unfold dispatch_slot in H.
  destruct (pfd_fd p =? 0).
  { injection H as <- <-. apply within_script_stay. }
  destruct (negb (Z.land (revents p) (Z.lor POLLERR POLLHUP) =? 0)).
  { injection H as <- <-. apply within_script_close. }
  set (c1 := if negb (Z.land (revents p) POLLIN =? 0)
             then fst (kk_input c r) else c) in H.
  assert (H1 : within_script (state c) (state c1) []).
  { unfold c1. destruct (negb (Z.land (revents p) POLLIN =? 0));
      [apply kk_input_within_script | apply within_script_stay]. }
  destruct (negb (Z.land (revents p) POLLOUT =? 0)).
  - destruct (kk_output c1 ws) as [[[c2 r2] s2]|] eqn:E; [|discriminate].
    injection H as <- <-.
    eapply within_script_trans; [exact H1|].
    eapply kk_output_within_script. exact E.
  - injection H as <- <-. exact H1.
Qed.

(** X15.  What one connection sends, over any number of passes and
    whatever the peer and the kernel do, is always an initial part of
    the banner followed by copies of the key-exchange-init packet: the
    packet never goes out before the whole banner, the banner never
    goes out twice, nothing else is ever sent, and nothing at all is
    sent on a closed slot.  (A connection already in [kk_kexinit] sends
    an initial part of copies of the packet.) *)
Theorem X15_sent_bytes_follow_script
    (passes : list (pollfd * read_res * list write_res)) :
  forall (c c' : kk_conn) (outs : list (list byte)),
    run_slot c passes = Some (c', outs) ->
    exists n rest, script (state c) n = concat outs ++ rest.
Proof.
  induction passes as [|[[p r] ws] passes IH]; intros c c' outs H.
  - injection H as _ <-. exists O, (script (state c) 0). reflexivity.
  - cbn [run_slot] in H.
    destruct (dispatch_slot p c r ws) as [[c1 sent]|] eqn:Es; [|discriminate].
    destruct (run_slot c1 passes) as [[c2 out]|] eqn:Er; [|discriminate].
    injection H as _ <-.
    destruct (IH _ _ _ Er) as (n & rest & Hn).
    destruct (dispatch_slot_within_script _ _ _ _ _ _ Es n _ _ Hn)
      as (n' & rest' & Hn').
    exists n', rest'. cbn [concat]. rewrite <- app_assoc. exact Hn'.
Qed.

Lemma X15_sent_bytes_witness :
  exists n rest,
    script kk_connected n
    = concat [banner; kexinit; bytes_of ""] ++ rest.
Proof.
  apply (X15_sent_bytes_follow_script
           [(mk_pollfd 3 13 5,
             ReadOk (bytes_of "SSH-2.0-x" ++ [CR; LF]), [WriteOk 4096]);
            (mk_pollfd 3 13 4, ReadErr, [WriteOk 4096]);
            (mk_pollfd 3 13 1, ReadErr, [])]
           (fresh 3 kk_connected)
           (kk_close (fresh 3 kk_connected))).
  vm_compute. reflexivity.
Defined.

(** X16.  The dispatch loop never revives a closed slot and never sends
    on it: whatever events [poll] reports for a closed slot and whatever
    [read] and [write] would answer, the slot is closed afterwards and no
    byte has gone out.  Only the top-up step opens a slot. *)
Theorem X16_closed_slot_stays_closed
    (p : pollfd) (c : kk_conn) (r : read_res) (ws : list write_res)
    (c' : kk_conn) (out : list byte) :
  state c = kk_closed ->
  dispatch_slot p c r ws = Some (c', out) ->
  state c' = kk_closed /\ out = [].
Proof.
  intros Hs H. unfold dispatch_slot in H.
  destruct (pfd_fd p =? 0). { injection H as <- <-. auto. }
  destruct (negb (Z.land (revents p) (Z.lor POLLERR POLLHUP) =? 0)).
  { injection H as <- <-. auto. }
  set (c1 := if negb (Z.land (revents p) POLLIN =? 0)
             then fst (kk_input c r) else c) in H.
  assert (H1 : state c1 = kk_closed).
  { unfold c1. destruct (negb (Z.land (revents p) POLLIN =? 0)); [|exact Hs].
    destruct (kk_input_stages c r) as [Heq|[Heq|[Hc _]]]; congruence. }
  destruct (negb (Z.land (revents p) POLLOUT =? 0)).
  - unfold kk_output in H. rewrite H1 in H.
    injection H as <- <-. auto.
  - injection H as <- <-. auto.
Qed.

Lemma X16_closed_slot_witness :
  state (fresh (-1) kk_closed) = kk_closed /\ @nil byte = [].
Proof.
  apply (X16_closed_slot_stays_closed
           (mk_pollfd (-1) POLLNVAL (Z.lor POLLIN POLLOUT))
           (fresh (-1) kk_closed) ReadErr [WriteOk 10]).
  - reflexivity.
  - vm_compute. reflexivity.
Defined.
